(** * Todo presets: schema, repository and materializer

    A shallow embedding of [app/domain/todo/schema/preset.py] and
    [app/domain/todo/preset_service.py], followed by the properties of the
    preset service: counting a todo forest, loading and listing preset
    documents, and materializing a preset through the tag and todo
    services. *)

From Stdlib Require Import NArith Ascii.
From stdpp Require Import gmap strings list fin_maps.

Set Warnings "-register-all".
Open Scope string_scope.
Open Scope list_scope.

(** ** Identifiers

    A [uuid.UUID] is a 128-bit integer. *)

Definition UUID : Type := N.

(** ** Schema ([schema/preset.py]) *)

Module Schema.

(** [PresetTag]: name, color, optional description. *)
Record PresetTag := mkPresetTag {
  tag_name : string;
  tag_color : string;
  tag_description : option string;
}.

(** [PresetTagGroup].  A goal ratio is a Python float that the service
    only passes on; it is kept here as a rational. *)
Record PresetTagGroup := mkPresetTagGroup {
  group_name : string;
  group_color : string;
  group_description : option string;
  goal_ratios : option (list (string * Qcanon.Qc));
  is_todo_group : bool;
}.

(** [PresetTodo]: both [tag_names] and [children] are
    [Optional[List[...]]], so [None] and the empty list are distinct
    values of the model. *)
Inductive PresetTodo := mkPresetTodo {
  title : string;
  description : option string;
  tag_names : option (list string);
  children : option (list PresetTodo);
}.

(** [Preset]: the root of a preset document. *)
Record Preset := mkPreset {
  name : string;
  preset_description : option string;
  tag_group : PresetTagGroup;
  tags : list PresetTag;
  todos : list PresetTodo;
}.

(** [PresetInfo]: the summary returned by the listing. *)
Record PresetInfo := mkPresetInfo {
  info_name : string;
  info_description : option string;
  tag_count : nat;
  todo_count : nat;
}.

(** [PresetInitializeResult] *)
Record PresetInitializeResult := mkPresetInitializeResult {
  preset_name : string;
  tag_group_id : string;
  tags_created : nat;
  todos_created : nat;
}.

End Schema.
Export Schema.

(** ** Data-transfer objects consumed by the collaborators

    [TagGroupCreate], [TagCreate] ([app/domain/tag/schema/dto.py]) and
    [TodoCreate] ([app/domain/todo/schema/dto.py]), with the fields the
    preset service fills in. *)

Module TagGroupCreate.
Record t := mk {
  name : string;
  color : string;
  description : option string;
  goal_ratios : option (list (string * Qcanon.Qc));
  is_todo_group : bool;
}.
End TagGroupCreate.

Module TagCreate.
Record t := mk {
  name : string;
  color : string;
  description : option string;
  group_id : UUID;
}.
End TagCreate.

Module TodoCreate.
Record t := mk {
  title : string;
  description : option string;
  tag_group_id : UUID;
  tag_ids : option (list UUID);
  parent_id : option UUID;
}.
End TodoCreate.

(** ** Exceptions and results *)

Inductive exn :=
| PresetNotFoundError (preset_name : string)
| JSONDecodeError (msg : string)   (* json.JSONDecodeError, a ValueError *)
| ValueError (msg : string)        (* any other ValueError, e.g. pydantic's ValidationError *)
| KeyError (key : string)
| OSError (msg : string)           (* raised by open() *)
| ServiceError (msg : string).     (* raised by a collaborator *)

Inductive result (A : Type) :=
| Ok (a : A)
| Raise (e : exn).
Arguments Ok {A} a.
Arguments Raise {A} e.

Definition result_bind {A B} (r : result A) (k : A → result B) : result B :=
  match r with
  | Ok a => k a
  | Raise e => Raise e
  end.

Declare Scope result_scope.
Delimit Scope result_scope with R.
Notation "'let*' x := c 'in' k" := (result_bind c (fun x => k))
  (at level 10, x name, c at level 100, k at level 200) : result_scope.

(** [except (json.JSONDecodeError, ValueError)]: the classes the listing
    catches. *)
Definition caught (e : exn) : bool :=
  match e with
  | JSONDecodeError _ | ValueError _ => true
  | _ => false
  end.

(** [try: body  except (json.JSONDecodeError, ValueError): handler] *)
Definition try_except {A} (body : result A) (handler : result A) : result A :=
  match body with
  | Ok a => Ok a
  | Raise e => if caught e then handler else Raise e
  end.

(** ** Python truthiness of an [Optional[List[_]]]

    [if xs:] holds exactly when [xs] is a non-empty list. *)

Definition truthy {A} (xs : option (list A)) : bool :=
  match xs with
  | Some (_ :: _) => true
  | _ => false
  end.

(** The list an [Optional[List[_]]] is iterated as, once it is truthy. *)
Definition items {A} (xs : option (list A)) : list A :=
  match xs with
  | Some l => l
  | None => []
  end.

(** ** [str(uuid)]

    [hex = '%032x' % int], then the groups [hex[:8]], [hex[8:12]],
    [hex[12:16]], [hex[16:20]], [hex[20:]] joined by hyphens. *)

Definition hex_digit (d : N) : ascii :=
  match d with
  | 0 => "0" | 1 => "1" | 2 => "2" | 3 => "3" | 4 => "4" | 5 => "5"
  | 6 => "6" | 7 => "7" | 8 => "8" | 9 => "9" | 10 => "a" | 11 => "b"
  | 12 => "c" | 13 => "d" | 14 => "e" | _ => "f"
  end%N%char.

Fixpoint hex_padded (width : nat) (n : N) (acc : string) : string :=
  match width with
  | O => acc
  | S width' => hex_padded width' (n / 16)%N (String (hex_digit (n mod 16)%N) acc)
  end.

Definition uuid_str (u : UUID) : string :=
  let hex := hex_padded 32 u "" in
  String.substring 0 8 hex +:+ "-" +:+ String.substring 8 4 hex +:+ "-"
    +:+ String.substring 12 4 hex +:+ "-" +:+ String.substring 16 4 hex +:+ "-"
    +:+ String.substring 20 12 hex.

(** ** The environment of the service

    The file system under [PRESETS_DIR] together with the two library
    calls of [_load_preset_file]: [json.load] and [Preset.model_validate].
    Their code is outside the service; the service only composes them. *)

Definition Path : Type := string.

Class Runtime := {
  PRESETS_DIR : Path;
  (* pathlib's [dir / segment] *)
  joinpath : Path → string → Path;
  (* [path.exists()]: the answer, or the [OSError] of the underlying
     [stat] (a name that is too long, a parent that cannot be searched) *)
  path_exists : Path → result bool;
  (* [dir.glob(pattern)], in the order the generator yields *)
  glob : Path → string → list Path;
  (* [open(path, "r", encoding="utf-8")] and reading the text *)
  open_read : Path → result string;
  JSON : Type;
  (* the parsing half of [json.load] *)
  json_loads : string → result JSON;
  (* [Preset.model_validate] *)
  model_validate : JSON → result Preset;
}.

(** ** The collaborators

    [TagService.create_tag_group], [TagService.create_tag] and
    [TodoService.create_todo] act on the persistence layer, whose state is
    [Store].  Each returns the created row, of which the preset service
    reads the [id] only, or raises. *)

Class Services := {
  Store : Type;
  create_tag_group : TagGroupCreate.t → Store → result UUID * Store;
  create_tag : TagCreate.t → Store → result UUID * Store;
  create_todo : TodoCreate.t → Store → result UUID * Store;
}.

(** A call to a collaborator, with the request it received and what it
    answered. *)
Inductive Call :=
| CreateTagGroup (req : TagGroupCreate.t) (out : result UUID)
| CreateTag (req : TagCreate.t) (out : result UUID)
| CreateTodo (req : TodoCreate.t) (out : result UUID).

(** What running a piece of the service from a store yields: the value
    returned (or the exception raised), the store afterwards, and the
    calls issued, oldest first. *)
Record Run (St A : Type) := mkRun {
  returned : result A;
  store_after : St;
  issued : list Call;
}.
Arguments mkRun {St A} _ _ _.
Arguments returned {St A} _.
Arguments store_after {St A} _.
Arguments issued {St A} _.

(** ** Counting ([PresetService._count_todos_recursive])

    The recursion goes through the list held by each node, so the
    function is defined on a node first ([count_below]: what the loop
    body adds to [count] for one [todo]) and then on a list.  Lemma
    [_count_todos_recursive_eq] gives the equation in the shape of the
    source. *)

Fixpoint count_below (todo : PresetTodo) : nat :=
  match todo with
  | mkPresetTodo _ _ _ (Some ((_ :: _) as kids)) =>
      fold_left (fun count t => count + count_below t) kids (length kids)
  | mkPresetTodo _ _ _ _ => 0
  end.

Definition _count_todos_recursive (todos : list PresetTodo) : nat :=
  fold_left (fun count todo => count + count_below todo) todos (length todos).

(** The nodes of a forest: every node, followed by every node below it,
    followed by the nodes of its later siblings (document order). *)
Fixpoint subtree (todo : PresetTodo) : list PresetTodo :=
  todo :: match todo with
          | mkPresetTodo _ _ _ (Some kids) => flat_map subtree kids
          | mkPresetTodo _ _ _ None => []
          end.

Definition all_nodes (todos : list PresetTodo) : list PresetTodo :=
  flat_map subtree todos.

(** ** The preset repository *)

Section Repository.
Context `{Runtime}.

(** [_get_preset_path] *)
Definition _get_preset_path (preset_name : string) : Path :=
  joinpath PRESETS_DIR (preset_name +:+ ".json").

(** [_load_preset_file]: open and read, parse the JSON text, validate. *)
Definition _load_preset_file (preset_path : Path) : result Preset :=
  (let* text := open_read preset_path in
   let* data := json_loads text in
   model_validate data)%R.

(** One iteration of the loop of [list_presets]: the [try] block appends
    a [PresetInfo]; a caught exception leaves [presets] as it was. *)
Definition list_presets_step (presets : list PresetInfo) (preset_file : Path)
  : result (list PresetInfo) :=
  try_except
    (let* preset := _load_preset_file preset_file in
     let todo_count := _count_todos_recursive (todos preset) in
     Ok (presets ++ [mkPresetInfo (name preset) (preset_description preset)
                       (length (tags preset)) todo_count]))%R
    (Ok presets).

(** [for preset_file in ...]: an exception that leaves an iteration
    ends the loop. *)
Fixpoint list_presets_loop (files : list Path) (presets : list PresetInfo)
  : result (list PresetInfo) :=
  match files with
  | [] => Ok presets
  | preset_file :: files' =>
      (let* presets' := list_presets_step presets preset_file in
       list_presets_loop files' presets')%R
  end.

(** [list_presets] *)
Definition list_presets : result (list PresetInfo) :=
  (let* found := path_exists PRESETS_DIR in
   if negb found then Ok []
   else list_presets_loop (glob PRESETS_DIR "*.json") [])%R.

(** [get_preset] *)
Definition get_preset (preset_name : string) : result Preset :=
  let preset_path := _get_preset_path preset_name in
  (let* found := path_exists preset_path in
   if negb found then Raise (PresetNotFoundError preset_name)
   else _load_preset_file preset_path)%R.

End Repository.

(** ** The preset materializer *)

Section Materializer.
Context `{Runtime} `{Services}.

(** Code that talks to the collaborators: a function of the store. *)
Definition M (A : Type) : Type := Store → Run Store A.

Definition ret {A} (a : A) : M A := fun s => mkRun (Ok a) s [].

Definition raise {A} (e : exn) : M A := fun s => mkRun (Raise e) s [].

(** Sequencing: an exception in the first part skips the second; the
    store keeps whatever the first part did to it. *)
Definition bind {A B} (c : M A) (k : A → M B) : M B := fun s =>
  let r := c s in
  match returned r with
  | Ok a =>
      let r' := k a (store_after r) in
      mkRun (returned r') (store_after r') (issued r ++ issued r')
  | Raise e => mkRun (Raise e) (store_after r) (issued r)
  end.

Definition lift {A} (r : result A) : M A :=
  match r with
  | Ok a => ret a
  | Raise e => raise e
  end.

(** [for x in xs: acc = body(acc, x)], starting from [acc] *)
Definition for_each {A S} (body : S → A → M S) : list A → S → M S :=
  fix loop (xs : list A) (acc : S) : M S :=
    match xs with
    | [] => ret acc
    | x :: xs' => bind (body acc x) (fun acc' => loop xs' acc')
    end.

(** [self.tag_service.create_tag_group(...).id] and its siblings. *)
Definition tag_service_create_tag_group (req : TagGroupCreate.t) : M UUID := fun s =>
  let '(out, s') := create_tag_group req s in mkRun out s' [CreateTagGroup req out].

Definition tag_service_create_tag (req : TagCreate.t) : M UUID := fun s =>
  let '(out, s') := create_tag req s in mkRun out s' [CreateTag req out].

Definition todo_service_create_todo (req : TodoCreate.t) : M UUID := fun s =>
  let '(out, s') := create_todo req s in mkRun out s' [CreateTodo req out].

(** [tag_name_to_id[name]] *)
Definition getitem (tag_name_to_id : gmap string UUID) (key : string) : result UUID :=
  match tag_name_to_id !! key with
  | Some v => Ok v
  | None => Raise (KeyError key)
  end.

(** [name in tag_name_to_id] *)
Definition contains (tag_name_to_id : gmap string UUID) (key : string) : bool :=
  bool_decide (is_Some (tag_name_to_id !! key)).

(** [[tag_name_to_id[name] for name in tag_names if name in tag_name_to_id]] *)
Fixpoint lookup_known (tag_name_to_id : gmap string UUID) (tag_names : list string)
  : result (list UUID) :=
  match tag_names with
  | [] => Ok []
  | name :: rest =>
      if contains tag_name_to_id name then
        (let* id := getitem tag_name_to_id name in
         let* ids := lookup_known tag_name_to_id rest in
         Ok (id :: ids))%R
      else lookup_known tag_name_to_id rest
  end.

(** The [tag_ids] of one todo: [None] unless [tag_names] is truthy. *)
Definition resolve_tag_ids (tag_name_to_id : gmap string UUID)
    (tag_names : option (list string)) : result (option (list UUID)) :=
  if truthy tag_names then
    (let* ids := lookup_known tag_name_to_id (items tag_names) in Ok (Some ids))%R
  else Ok None.

(** The [TodoCreate] built for one node. *)
Definition todo_request (tag_group_id : UUID) (tag_ids : option (list UUID))
    (parent_id : option UUID) (preset_todo : PresetTodo) : TodoCreate.t :=
  TodoCreate.mk (title preset_todo) (description preset_todo)
    tag_group_id tag_ids parent_id.

(** The body of the loop of [_create_todos_recursive] for one
    [preset_todo], as a function of [created_count]; the recursive call
    on the children is the inner [for_each]. *)
Fixpoint create_todo_step (tag_group_id : UUID) (tag_name_to_id : gmap string UUID)
    (parent_id : option UUID) (created_count : nat) (preset_todo : PresetTodo)
    {struct preset_todo} : M nat :=
  match preset_todo with
  | mkPresetTodo ti de tn ch =>
      bind (lift (resolve_tag_ids tag_name_to_id tn)) (fun tag_ids =>
      bind (todo_service_create_todo
              (TodoCreate.mk ti de tag_group_id tag_ids parent_id)) (fun todo_id =>
      let created_count := created_count + 1 in
      match ch with
      | Some ((_ :: _) as kids) =>
          bind (for_each (fun count kid =>
                  create_todo_step tag_group_id tag_name_to_id (Some todo_id) count kid)
                  kids 0)
               (fun n => ret (created_count + n))
      | _ => ret created_count
      end))
  end.

(** [_create_todos_recursive] *)
Definition _create_todos_recursive (preset_todos : list PresetTodo)
    (tag_group_id : UUID) (tag_name_to_id : gmap string UUID)
    (parent_id : option UUID) : M nat :=
  for_each (create_todo_step tag_group_id tag_name_to_id parent_id) preset_todos 0.

(** Step 2 of [initialize_from_preset]: create the tags and build
    [tag_name_to_id]. *)
Definition create_tags (preset_tags : list PresetTag) (group_id : UUID)
  : M (gmap string UUID) :=
  for_each (fun (tag_name_to_id : gmap string UUID) preset_tag =>
    bind (tag_service_create_tag
            (TagCreate.mk (tag_name preset_tag) (tag_color preset_tag)
               (tag_description preset_tag) group_id)) (fun tag_id =>
    ret (<[tag_name preset_tag := tag_id]> tag_name_to_id)))
    preset_tags ∅.

(** [initialize_from_preset] *)
Definition initialize_from_preset (preset_name : string) : M PresetInitializeResult :=
  bind (lift (get_preset preset_name)) (fun preset =>
  bind (tag_service_create_tag_group
          (TagGroupCreate.mk (group_name (tag_group preset))
             (group_color (tag_group preset))
             (group_description (tag_group preset))
             (goal_ratios (tag_group preset))
             (is_todo_group (tag_group preset)))) (fun group_id =>
  bind (create_tags (tags preset) group_id) (fun tag_name_to_id =>
  bind (_create_todos_recursive (todos preset) group_id tag_name_to_id None)
       (fun todos_created =>
  ret (mkPresetInitializeResult preset_name (uuid_str group_id)
         (length (tags preset)) todos_created))))).

End Materializer.

(** ** A test double

    A preset directory described by a table, and collaborators that hand
    out consecutive identifiers; used to run the service on concrete
    inputs. *)

Module Demo.

Inductive Entry :=
| Valid (preset : Preset)   (* parses and validates *)
| Malformed                 (* not JSON *)
| Invalid                   (* JSON that violates the schema *)
| Unreadable.               (* cannot be opened *)

Definition find_entry (entries : list (string * Entry)) (path : Path) : option Entry :=
  snd <$> List.find (fun e => String.eqb ("presets/" +:+ fst e +:+ ".json") path) entries.

(** The runtime in which the directory ["presets"] exists iff
    [dir_exists] and holds one [<stem>.json] per entry.  A file name of
    more than 255 characters makes [exists()] raise (ENAMETOOLONG). *)
Definition table (dir_exists : bool) (entries : list (string * Entry)) : Runtime := {|
  PRESETS_DIR := "presets";
  joinpath dir segment := dir +:+ "/" +:+ segment;
  path_exists path :=
    if String.eqb path "presets" then Ok dir_exists
    else if (String.length "presets/" + 255 <? String.length path)%nat
         then Raise (OSError "File name too long")
         else Ok (dir_exists && bool_decide (is_Some (find_entry entries path)));
  glob dir pattern :=
    if dir_exists && String.eqb dir "presets" && String.eqb pattern "*.json"
    then map (fun e => "presets/" +:+ fst e +:+ ".json") entries else [];
  open_read path :=
    match find_entry entries path with
    | Some Unreadable => Raise (OSError path)
    | Some _ => Ok path
    | None => Raise (OSError path)
    end;
  JSON := Path;
  json_loads text :=
    match find_entry entries text with
    | Some Malformed => Raise (JSONDecodeError text)
    | _ => Ok text
    end;
  model_validate data :=
    match find_entry entries data with
    | Some (Valid preset) => Ok preset
    | _ => Raise (ValueError data)
    end;
|}.



(** Collaborators over a counter: every creation succeeds and returns
    the next identifier. *)
Definition counter : Services := {|
  Store := N;
  create_tag_group _ next := (Ok next, (next + 1)%N);
  create_tag _ next := (Ok next, (next + 1)%N);
  create_todo _ next := (Ok next, (next + 1)%N);
|}.

(** The preset of the scenario: one tag, a root todo with one child. *)
Definition study : Preset :=
  mkPreset "study" None
    (mkPresetTagGroup "Study" "#FF0000" None None true)
    [mkPresetTag "Math" "#00FF00" None]
    [mkPresetTodo "Read" None (Some ["Math"])
       (Some [mkPresetTodo "Chapter 1" None None None])].

(** A document stored as [renamed.json] whose ["name"] is ["study"]. *)
Definition catalog : list (string * Entry) :=
  [("study", Valid study); ("broken", Malformed); ("badcolor", Invalid);
   ("renamed", Valid study)].

Definition leaf (t : string) : PresetTodo := mkPresetTodo t None None None.

(** One root with two children, one of which has one child, plus one
    standalone root. *)
Definition forest : list PresetTodo :=
  [ mkPresetTodo "Parent 1" None None
      (Some [ leaf "Child 1.1";
              mkPresetTodo "Child 1.2" None None (Some [leaf "Grandchild 1.2.1"]) ]);
    leaf "Parent 2" ].

End Demo.

(** ** Notions used to state the properties *)

Definition result_map {A B} (f : A → B) (r : result A) : result B :=
  match r with
  | Ok a => Ok (f a)
  | Raise e => Raise e
  end.

(** The summary of a loaded preset. *)
Definition preset_info (preset : Preset) : PresetInfo :=
  mkPresetInfo (name preset) (preset_description preset)
    (length (tags preset)) (_count_todos_recursive (todos preset)).

(** What the listing keeps of a file: its summary when it loads. *)
Definition listed `{Runtime} (preset_file : Path) : option PresetInfo :=
  match _load_preset_file preset_file with
  | Ok preset => Some (preset_info preset)
  | Raise _ => None
  end.

(** A file the listing gets past: it loads, or fails with a caught
    exception. *)
Definition settles `{Runtime} (preset_file : Path) : Prop :=
  ∀ e, _load_preset_file preset_file = Raise e → caught e = true.

(** The identifiers the names of a todo stand for: the successful
    lookups, in the order of the names. *)
Definition tag_ids_of (tag_name_to_id : gmap string UUID)
    (tag_names : option (list string)) : option (list UUID) :=
  if truthy tag_names
  then Some (omap (fun name => tag_name_to_id !! name) (items tag_names))
  else None.

(** The calls that creating a forest under [parent_id] can issue, with the
    value returned.  The call for a node comes first and carries
    [parent_id]; the calls for its children follow and carry the
    identifier answered for the node; the calls for its later siblings
    come last.  A refused creation ends the trace. *)
Inductive TodoTrace (tag_group_id : UUID) (tag_name_to_id : gmap string UUID)
  : option UUID → list PresetTodo → list Call → result nat → Prop :=
| todo_trace_done parent_id :
    TodoTrace tag_group_id tag_name_to_id parent_id [] [] (Ok 0)
| todo_trace_refused parent_id todo rest e :
    TodoTrace tag_group_id tag_name_to_id parent_id (todo :: rest)
      [CreateTodo (todo_request tag_group_id
                     (tag_ids_of tag_name_to_id (tag_names todo)) parent_id todo)
                  (Raise e)]
      (Raise e)
| todo_trace_refused_below parent_id todo rest todo_id below e :
    TodoTrace tag_group_id tag_name_to_id (Some todo_id) (items (children todo))
      below (Raise e) →
    TodoTrace tag_group_id tag_name_to_id parent_id (todo :: rest)
      (CreateTodo (todo_request tag_group_id
                     (tag_ids_of tag_name_to_id (tag_names todo)) parent_id todo)
                  (Ok todo_id) :: below)
      (Raise e)
| todo_trace_created parent_id todo rest todo_id below n after out :
    TodoTrace tag_group_id tag_name_to_id (Some todo_id) (items (children todo))
      below (Ok n) →
    TodoTrace tag_group_id tag_name_to_id parent_id rest after out →
    TodoTrace tag_group_id tag_name_to_id parent_id (todo :: rest)
      (CreateTodo (todo_request tag_group_id
                     (tag_ids_of tag_name_to_id (tag_names todo)) parent_id todo)
                  (Ok todo_id) :: below ++ after)
      (result_map (fun k => 1 + n + k) out).

(** The [TagCreate] built for one preset tag. *)
Definition tag_request (group_id : UUID) (preset_tag : PresetTag) : TagCreate.t :=
  TagCreate.mk (tag_name preset_tag) (tag_color preset_tag)
    (tag_description preset_tag) group_id.

(** The calls that the tag loop can issue from a mapping, with the mapping
    it ends with: one call per preset tag, in the order of the list, each
    answer recorded under the name of its tag. *)
Inductive TagTrace (group_id : UUID)
  : gmap string UUID → list PresetTag → list Call → result (gmap string UUID) → Prop :=
| tag_trace_done tag_name_to_id :
    TagTrace group_id tag_name_to_id [] [] (Ok tag_name_to_id)
| tag_trace_refused tag_name_to_id preset_tag rest e :
    TagTrace group_id tag_name_to_id (preset_tag :: rest)
      [CreateTag (tag_request group_id preset_tag) (Raise e)] (Raise e)
| tag_trace_created tag_name_to_id preset_tag rest tag_id after out :
    TagTrace group_id (<[tag_name preset_tag := tag_id]> tag_name_to_id) rest after out →
    TagTrace group_id tag_name_to_id (preset_tag :: rest)
      (CreateTag (tag_request group_id preset_tag) (Ok tag_id) :: after) out.

(** No call of [calls] creates a tag called [name]. *)
Definition no_tag_named (calls : list Call) (name : string) : Prop :=
  ∀ j req out, calls !! j = Some (CreateTag req out) → TagCreate.name req ≠ name.

(** No forward reference: the [parent_id] of every todo request in
    [calls] is [root], or the identifier answered by an earlier call of
    [calls]. *)
Definition parents_precede (root : option UUID) (calls : list Call) : Prop :=
  ∀ i req out, calls !! i = Some (CreateTodo req out) →
    TodoCreate.parent_id req = root
    ∨ ∃ j req' id, j < i ∧ calls !! j = Some (CreateTodo req' (Ok id))
                   ∧ TodoCreate.parent_id req = Some id.

(** The title and description a call asks to create a todo with. *)
Definition requested (c : Call) : option (string * option string) :=
  match c with
  | CreateTodo req _ => Some (TodoCreate.title req, TodoCreate.description req)
  | _ => None
  end.

Definition is_tag_group_call (c : Call) : bool :=
  match c with CreateTagGroup _ _ => true | _ => false end.
Definition is_tag_call (c : Call) : bool :=
  match c with CreateTag _ _ => true | _ => false end.
Definition is_todo_call (c : Call) : bool :=
  match c with CreateTodo _ _ => true | _ => false end.

(** How many calls of a kind a trace holds. *)
Definition count_calls (kind : Call → bool) (calls : list Call) : nat :=
  length (List.filter kind calls).

(** A collaborator that answers every request with an identifier. *)
Definition never_fails {Req St} (f : Req → St → result UUID * St) : Prop :=
  ∀ req s, ∃ id, (f req s).1 = Ok id.

(** The [TagGroupCreate] built for a preset. *)
Definition tag_group_request (preset : Preset) : TagGroupCreate.t :=
  TagGroupCreate.mk (group_name (tag_group preset)) (group_color (tag_group preset))
    (group_description (tag_group preset)) (goal_ratios (tag_group preset))
    (is_todo_group (tag_group preset)).

(** [calls !! i] is the most recent creation of a tag called [name]: it
    answered [id], and no later call of [calls] creates a tag of that
    name. *)
Definition most_recent_tag (calls : list Call) (name : string) (id : UUID) : Prop :=
  ∃ i req, calls !! i = Some (CreateTag req (Ok id))
    ∧ TagCreate.name req = name
    ∧ ∀ j req' out, i < j → calls !! j = Some (CreateTag req' out) →
        TagCreate.name req' ≠ name.

(** ** Notions used to state further properties *)

(** What a collaborator answered to a call. *)
Definition answer (c : Call) : result UUID :=
  match c with
  | CreateTagGroup _ out | CreateTag _ out | CreateTodo _ out => out
  end.

Definition succeeded (c : Call) : bool :=
  match answer c with
  | Ok _ => true
  | Raise _ => false
  end.

(** The exception a result carries, if any. *)
Definition raised {A} (r : result A) : option exn :=
  match r with
  | Ok _ => None
  | Raise e => Some e
  end.

(** Calls that stop at the first failure: when nothing is raised every
    call succeeded; when [e] is raised, the last call answered [e] and
    every call before it succeeded. *)
Definition stops_at_first_failure (calls : list Call) (err : option exn) : Prop :=
  match err with
  | None => Forall (fun c => succeeded c = true) calls
  | Some e =>
      ∃ front c, calls = front ++ [c]
        ∧ Forall (fun c => succeeded c = true) front
        ∧ answer c = Raise e
  end.

(** A tag or a todo request made for the group [group_id]. *)
Definition scoped_to (group_id : UUID) (c : Call) : Prop :=
  match c with
  | CreateTagGroup _ _ => False
  | CreateTag req _ => TagCreate.group_id req = group_id
  | CreateTodo req _ => TodoCreate.tag_group_id req = group_id
  end.

(** A request for a todo without parent. *)
Definition is_root_request (c : Call) : bool :=
  match c with
  | CreateTodo req _ =>
      match TodoCreate.parent_id req with None => true | Some _ => false end
  | _ => false
  end.

(** Every identifier a todo request attaches was answered by an earlier
    creation of a tag. *)
Definition tags_precede (calls : list Call) : Prop :=
  ∀ i req out ids id,
    calls !! i = Some (CreateTodo req out) →
    TodoCreate.tag_ids req = Some ids → id ∈ ids →
    ∃ j req', j < i ∧ calls !! j = Some (CreateTag req' (Ok id)).

(** Collaborators with a quota: identifiers are handed out in sequence
    until [limit] is reached, after which every creation is refused. *)
Module Outage.

Definition refuse_from (limit : N) {Req : Type} (_ : Req) (next : N) : result UUID * N :=
  if (next <? limit)%N then (Ok next, (next + 1)%N)
  else (Raise (ServiceError "quota"), next).

Definition quota (limit : N) : Services := {|
  Store := N;
  create_tag_group := refuse_from limit;
  create_tag := refuse_from limit;
  create_todo := refuse_from limit;
|}.

End Outage.

(** The value of a hexadecimal digit, and of a string of digits read
    most significant first. *)
Definition hex_value (c : ascii) : N :=
  match c with
  | "0" => 0 | "1" => 1 | "2" => 2 | "3" => 3 | "4" => 4 | "5" => 5
  | "6" => 6 | "7" => 7 | "8" => 8 | "9" => 9 | "a" => 10 | "b" => 11
  | "c" => 12 | "d" => 13 | "e" => 14 | _ => 15
  end%char%N.

Fixpoint hex_read (acc : N) (digits : string) : N :=
  match digits with
  | EmptyString => acc
  | String c rest => hex_read (acc * 16 + hex_value c)%N rest
  end.

(** The digits of a formatted identifier, hyphens left out. *)
Definition uuid_digits (formatted : string) : string :=
  String.substring 0 8 formatted +:+ String.substring 9 4 formatted
    +:+ String.substring 14 4 formatted +:+ String.substring 19 4 formatted
    +:+ String.substring 24 12 formatted.

(** * Properties *)

(** ** Induction over forests *)

(** To prove a property of every forest it suffices to prove it for the
    empty forest and, for [todo :: rest], from the property of the
    children of [todo] and of [rest]. *)
Lemma forest_ind (P : list PresetTodo → Prop) :
  P [] →
  (∀ todo rest, P (items (children todo)) → P rest → P (todo :: rest)) →
  ∀ todos, P todos.
Proof.
  intros Hnil Hcons.
  assert (Hnode : ∀ todo, P (items (children todo))).
  { fix IH 1. intros [ti de tn [kids|]]; simpl; [|exact Hnil].
    induction kids as [|kid kids IHkids]; [exact Hnil|].
    apply Hcons; [apply IH | exact IHkids]. }
  intros forest. induction forest as [|todo rest IHrest]; [exact Hnil|].
  apply Hcons; [apply Hnode | exact IHrest].
Qed.

(** ** Counting *)

Lemma fold_left_add {A} (f : A → nat) (l : list A) (a : nat) :
  fold_left (fun count x => count + f x) l a = a + list_sum (map f l).
Proof.
  revert a. induction l as [|x l IH]; intros a; simpl; [lia|].
  rewrite IH. lia.
Qed.

(** What the loop body adds for [todo] is the count of its children; a
    [children] that is [None] or empty adds nothing. *)
Lemma count_below_children (todo : PresetTodo) :
  count_below todo =
  if truthy (children todo) then _count_todos_recursive (items (children todo)) else 0.
Proof. destruct todo as [ti de tn [[|kid kids]|]]; reflexivity. Qed.

(** The equation of [_count_todos_recursive] in the shape of the source:
    [count = len(todos)], then for every [todo] with truthy [children],
    [count += _count_todos_recursive(todo.children)]. *)
Lemma _count_todos_recursive_eq (todos : list PresetTodo) :
  _count_todos_recursive todos =
  fold_left (fun count todo =>
               if truthy (children todo)
               then count + _count_todos_recursive (items (children todo))
               else count)
            todos (length todos).
Proof.
  unfold _count_todos_recursive at 1.
  generalize (length todos). induction todos as [|todo rest IH]; intros n; simpl; [done|].
  rewrite IH, count_below_children.
  destruct (truthy (children todo)); [done | by rewrite Nat.add_0_r].
Qed.

Lemma count_items_falsy {A} (xs : option (list A)) :
  truthy xs = false → items xs = [].
Proof. by destruct xs as [[|x l]|]. Qed.

Lemma _count_todos_recursive_cons (todo : PresetTodo) (rest : list PresetTodo) :
  _count_todos_recursive (todo :: rest) =
  1 + _count_todos_recursive (items (children todo)) + _count_todos_recursive rest.
Proof.
  unfold _count_todos_recursive at 1 3. rewrite !fold_left_add. simpl.
  rewrite count_below_children.
  destruct (truthy (children todo)) eqn:E; [lia|].
  rewrite (count_items_falsy _ E). simpl. lia.
Qed.

Lemma all_nodes_cons (todo : PresetTodo) (rest : list PresetTodo) :
  all_nodes (todo :: rest) = todo :: all_nodes (items (children todo)) ++ all_nodes rest.
Proof. destruct todo as [ti de tn [kids|]]; reflexivity. Qed.

Lemma count_is_length_all_nodes (todos : list PresetTodo) :
  _count_todos_recursive todos = length (all_nodes todos).
Proof.
  induction todos as [|todo rest IHkids IHrest] using forest_ind; [done|].
  rewrite _count_todos_recursive_cons, all_nodes_cons. simpl.
  rewrite length_app. lia.
Qed.

(** C1: for every forest, [_count_todos_recursive] returns the number of
    nodes of the forest, descendants at every depth included; this is the
    number of top-level nodes plus the sum of the counts of each node's
    children; and on the example forest (a root with two children, one of
    which has one child, plus a standalone root) it returns 5. *)
Theorem count_todos_recursive_total (todos : list PresetTodo) :
  _count_todos_recursive todos = length (all_nodes todos)
  ∧ _count_todos_recursive todos =
      length todos
      + list_sum (map (fun todo => _count_todos_recursive (items (children todo))) todos)
  ∧ _count_todos_recursive Demo.forest = 5.
Proof.
  split; [apply count_is_length_all_nodes|]. split; [|reflexivity].
  induction todos as [|todo rest IH]; [done|].
  rewrite _count_todos_recursive_cons, IH. simpl. lia.
Qed.

(** ** The repository *)

Section RepositoryFacts.
Context `{Runtime}.

Lemma list_presets_step_loaded presets preset_file preset :
  _load_preset_file preset_file = Ok preset →
  list_presets_step presets preset_file = Ok (presets ++ [preset_info preset]).
Proof. intros E. unfold list_presets_step. by rewrite E. Qed.

Lemma list_presets_step_raised presets preset_file e :
  _load_preset_file preset_file = Raise e →
  list_presets_step presets preset_file = if caught e then Ok presets else Raise e.
Proof. intros E. unfold list_presets_step. by rewrite E. Qed.

Lemma list_presets_loop_settled files presets :
  (∀ f, f ∈ files → settles f) →
  list_presets_loop files presets = Ok (presets ++ omap listed files).
Proof.
  revert presets. induction files as [|f files IH]; intros presets Hall; simpl.
  - by rewrite app_nil_r.
  - assert (Hf : settles f) by (apply Hall; left).
    assert (Hrest : ∀ g, g ∈ files → settles g) by (intros g Hg; apply Hall; by right).
    unfold listed at 1. destruct (_load_preset_file f) as [preset|e] eqn:E.
    + rewrite (list_presets_step_loaded _ _ _ E). simpl.
      rewrite IH by done. by rewrite <- app_assoc.
    + rewrite (list_presets_step_raised _ _ _ E), (Hf e E). simpl. by apply IH.
Qed.





(** The loop stops at the first file whose failure is not caught,
    whatever it has collected and whatever files follow. *)
Lemma list_presets_loop_first_uncaught before preset_file after presets e :
  (∀ f, f ∈ before → settles f) →
  _load_preset_file preset_file = Raise e → caught e = false →
  list_presets_loop (before ++ preset_file :: after) presets = Raise e.
Proof.
  intros Hbefore Hload Huncaught. revert Hbefore presets.
  induction before as [|f before IH]; intros Hbefore presets.
  - simpl. by rewrite (list_presets_step_raised _ _ _ Hload), Huncaught.
  - simpl. assert (Hf : settles f) by (apply Hbefore; left).
    assert (Hrest : ∀ g, g ∈ before → settles g)
      by (intros g Hg; apply Hbefore; by right).
    destruct (_load_preset_file f) as [preset|e'] eqn:E.
    + rewrite (list_presets_step_loaded _ _ _ E). simpl. by apply IH.
    + rewrite (list_presets_step_raised _ _ _ E), (Hf e' E). simpl. by apply IH.
Qed.

End RepositoryFacts.




(** ** The materializer *)

Section MaterializerFacts.
Context `{Services}.
Variables (tag_group_id : UUID) (tag_name_to_id : gmap string UUID).

(** *** Running sequenced code *)

Lemma bind_eq {A B} (c : M A) (k : A → M B) s :
  bind c k s =
  match returned (c s) with
  | Ok a =>
      let r' := k a (store_after (c s)) in
      mkRun (returned r') (store_after r') (issued (c s) ++ issued r')
  | Raise e => mkRun (Raise e) (store_after (c s)) (issued (c s))
  end.
Proof. reflexivity. Qed.

Lemma bind_ret_l {A B} (a : A) (k : A → M B) s : bind (ret a) k s = k a s.
Proof. rewrite bind_eq. cbn. by destruct (k a s). Qed.

Lemma todo_service_create_todo_run req s :
  todo_service_create_todo req s =
  mkRun (create_todo req s).1 (create_todo req s).2 [CreateTodo req (create_todo req s).1].
Proof. unfold todo_service_create_todo. by destruct (create_todo req s). Qed.

Lemma tag_service_create_tag_run req s :
  tag_service_create_tag req s =
  mkRun (create_tag req s).1 (create_tag req s).2 [CreateTag req (create_tag req s).1].
Proof. unfold tag_service_create_tag. by destruct (create_tag req s). Qed.

Lemma tag_service_create_tag_group_run req s :
  tag_service_create_tag_group req s =
  mkRun (create_tag_group req s).1 (create_tag_group req s).2
        [CreateTagGroup req (create_tag_group req s).1].
Proof. unfold tag_service_create_tag_group. by destruct (create_tag_group req s). Qed.

(** *** Resolving tag names *)

(** The comprehension never raises [KeyError]: the lookup is guarded by
    the membership test. *)
Lemma lookup_known_ok (names : list string) :
  lookup_known tag_name_to_id names
  = Ok (omap (fun name => tag_name_to_id !! name) names).
Proof.
  induction names as [|name rest IH]; simpl; [done|].
  unfold contains, getitem. rewrite IH.
  destruct (tag_name_to_id !! name) as [id|] eqn:E; case_bool_decide as Hin; simpl.
  - done.
  - exfalso. apply Hin. by exists id.
  - by destruct Hin.
  - done.
Qed.

Lemma resolve_tag_ids_ok (names : option (list string)) :
  resolve_tag_ids tag_name_to_id names = Ok (tag_ids_of tag_name_to_id names).
Proof.
  unfold resolve_tag_ids, tag_ids_of. destruct (truthy names); [|done].
  by rewrite lookup_known_ok.
Qed.

(** The loop body in the shape of the source: resolve the tag names,
    create the todo under [parent_id], count it, and when [children] is
    truthy add what the recursive call under the new identifier
    returns. *)
Lemma create_todo_step_unfold parent_id created_count preset_todo :
  create_todo_step tag_group_id tag_name_to_id parent_id created_count preset_todo =
  bind (lift (resolve_tag_ids tag_name_to_id (tag_names preset_todo))) (fun tag_ids =>
  bind (todo_service_create_todo
          (todo_request tag_group_id tag_ids parent_id preset_todo)) (fun todo_id =>
  let created_count := created_count + 1 in
  if truthy (children preset_todo) then
    bind (_create_todos_recursive (items (children preset_todo)) tag_group_id
            tag_name_to_id (Some todo_id))
         (fun n => ret (created_count + n))
  else ret created_count)).
Proof. destruct preset_todo as [ti de tn [[|kid kids]|]]; reflexivity. Qed.

Lemma _create_todos_recursive_nil parent_id s :
  _create_todos_recursive [] tag_group_id tag_name_to_id parent_id s = mkRun (Ok 0) s [].
Proof. reflexivity. Qed.

(** The same, with the collaborator's answer made explicit. *)
Lemma create_todo_step_eq parent_id created_count preset_todo s :
  create_todo_step tag_group_id tag_name_to_id parent_id created_count preset_todo s =
  let req := todo_request tag_group_id
               (tag_ids_of tag_name_to_id (tag_names preset_todo)) parent_id preset_todo in
  match (create_todo req s).1 with
  | Raise e => mkRun (Raise e) (create_todo req s).2 [CreateTodo req (Raise e)]
  | Ok todo_id =>
      let r := _create_todos_recursive (items (children preset_todo)) tag_group_id
                 tag_name_to_id (Some todo_id) (create_todo req s).2 in
      mkRun (result_map (fun n => created_count + 1 + n) (returned r))
            (store_after r) (CreateTodo req (Ok todo_id) :: issued r)
  end.
Proof.
  rewrite create_todo_step_unfold, resolve_tag_ids_ok.
  change (lift (Ok ?x)) with (ret x). rewrite bind_ret_l, bind_eq.
  rewrite todo_service_create_todo_run. cbn [returned store_after issued].
  destruct (create_todo _ s).1 as [todo_id|e]; [|done]. cbv zeta.
  destruct (truthy (children preset_todo)) eqn:E.
  - rewrite bind_eq.
    destruct (_create_todos_recursive _ _ _ _ _) as [[n|e] s2 calls];
      cbn; by rewrite ?app_nil_r.
  - rewrite (count_items_falsy _ E), _create_todos_recursive_nil. cbn.
    by rewrite Nat.add_0_r.
Qed.

(** The count a loop starts from is only added to. *)
Lemma for_each_todos_from parent_id preset_todos created_count s :
  for_each (create_todo_step tag_group_id tag_name_to_id parent_id)
    preset_todos created_count s =
  let r := _create_todos_recursive preset_todos tag_group_id tag_name_to_id parent_id s in
  mkRun (result_map (fun n => created_count + n) (returned r)) (store_after r) (issued r).
Proof.
  unfold _create_todos_recursive.
  revert created_count s.
  induction preset_todos as [|todo rest IH]; intros c s.
  - cbn. by rewrite Nat.add_0_r.
  - cbn [for_each]. rewrite !bind_eq, !create_todo_step_eq. cbv zeta.
    destruct (create_todo _ s).1 as [todo_id|e]; [|done].
    destruct (_create_todos_recursive _ _ _ _ _) as [[n|e] s2 calls];
      cbn [returned store_after issued result_map]; [|done].
    rewrite (IH (c + 1 + n)), (IH (0 + 1 + n)). cbv zeta.
    destruct (for_each _ rest 0 s2) as [[k|e] s3 calls']; cbn; [|done].
    f_equal. f_equal. lia.
Qed.

(** One turn of the loop of [_create_todos_recursive]. *)
Lemma _create_todos_recursive_cons parent_id todo rest s :
  _create_todos_recursive (todo :: rest) tag_group_id tag_name_to_id parent_id s =
  let r1 := create_todo_step tag_group_id tag_name_to_id parent_id 0 todo s in
  match returned r1 with
  | Raise e => mkRun (Raise e) (store_after r1) (issued r1)
  | Ok n1 =>
      let r2 := _create_todos_recursive rest tag_group_id tag_name_to_id parent_id
                  (store_after r1) in
      mkRun (result_map (fun k => n1 + k) (returned r2)) (store_after r2)
            (issued r1 ++ issued r2)
  end.
Proof.
  unfold _create_todos_recursive at 1. cbn [for_each]. rewrite bind_eq. cbv zeta.
  destruct (returned (create_todo_step _ _ _ _ _ _)) as [n1|e]; [|done].
  by rewrite for_each_todos_from.
Qed.

(** Every run of [_create_todos_recursive] issues a [TodoTrace]. *)
Lemma _create_todos_recursive_trace preset_todos : ∀ parent_id s,
  let r := _create_todos_recursive preset_todos tag_group_id tag_name_to_id parent_id s in
  TodoTrace tag_group_id tag_name_to_id parent_id preset_todos (issued r) (returned r).
Proof.
  induction preset_todos as [|todo rest IHkids IHrest] using forest_ind;
    intros parent_id s; cbv zeta.
  - apply todo_trace_done.
  - rewrite _create_todos_recursive_cons, create_todo_step_eq. cbv zeta.
    destruct (create_todo _ s).1 as [todo_id|e]; [|apply todo_trace_refused].
    specialize (IHkids (Some todo_id) (create_todo
      (todo_request tag_group_id (tag_ids_of tag_name_to_id (tag_names todo))
         parent_id todo) s).2).
    cbv zeta in IHkids.
    destruct (_create_todos_recursive (items (children todo)) _ _ _ _)
      as [[n|e] s2 calls]; cbn [returned store_after issued result_map] in *.
    + specialize (IHrest parent_id s2). cbv zeta in IHrest.
      apply (todo_trace_created _ _ _ _ _ _ _ _ _ _ IHkids IHrest).
    + by apply todo_trace_refused_below.
Qed.

(** With a todo service that never fails, the traversal returns. *)
Lemma _create_todos_recursive_returns preset_todos :
  never_fails create_todo →
  ∀ parent_id s, ∃ n,
    returned (_create_todos_recursive preset_todos tag_group_id tag_name_to_id
                parent_id s) = Ok n.
Proof.
  intros Hnf.
  induction preset_todos as [|todo rest IHkids IHrest] using forest_ind;
    intros parent_id s.
  - by exists 0.
  - rewrite _create_todos_recursive_cons, create_todo_step_eq. cbv zeta.
    destruct (Hnf (todo_request tag_group_id
                     (tag_ids_of tag_name_to_id (tag_names todo)) parent_id todo) s)
      as [todo_id ->].
    cbn [returned store_after issued].
    destruct (IHkids (Some todo_id) (create_todo
      (todo_request tag_group_id (tag_ids_of tag_name_to_id (tag_names todo))
         parent_id todo) s).2) as [n ->].
    cbn [result_map].
    match goal with |- context [_create_todos_recursive rest _ _ _ ?s2] =>
      destruct (IHrest parent_id s2) as [k ->] end.
    by eexists.
Qed.

End MaterializerFacts.

(** ** Traces of the todo traversal *)

Section TodoTraceFacts.
Variables (tag_group_id : UUID) (tag_name_to_id : gmap string UUID).

Lemma parents_precede_nil root : parents_precede root [].
Proof. intros i req out Hi. by rewrite lookup_nil in Hi. Qed.

Lemma parents_precede_refused root req e :
  TodoCreate.parent_id req = root →
  parents_precede root [CreateTodo req (Raise e)].
Proof.
  intros Hp [|i] req' out Hi; simpl in Hi; [|by rewrite lookup_nil in Hi].
  injection Hi as <- <-. by left.
Qed.

(** A node under [root], the calls of its children, the calls of its
    later siblings. *)
Lemma parents_precede_node root req id below after :
  TodoCreate.parent_id req = root →
  parents_precede (Some id) below →
  parents_precede root after →
  parents_precede root (CreateTodo req (Ok id) :: below ++ after).
Proof.
  intros Hp Hbelow Hafter [|i] req' out Hi; simpl in Hi.
  { injection Hi as <- <-. by left. }
  apply lookup_app_Some in Hi as [Hi|[Hge Hi]].
  - destruct (Hbelow _ _ _ Hi) as [Hroot|(j & req'' & id' & Hj & Hl & Hpar)]; right.
    + exists 0, req, id. split; [lia|]. by split.
    + exists (S j), req'', id'. split; [lia|]. split; [|done].
      simpl. by apply lookup_app_l_Some.
  - destruct (Hafter _ _ _ Hi) as [Hroot|(j & req'' & id' & Hj & Hl & Hpar)];
      [by left|right].
    exists (S (length below + j)), req'', id'. split; [lia|]. split; [|done].
    simpl. rewrite lookup_app_r by lia.
    by replace (length below + j - length below) with j by lia.
Qed.

(** No call of a trace refers forward. *)
Lemma TodoTrace_parents_precede parent_id preset_todos calls out :
  TodoTrace tag_group_id tag_name_to_id parent_id preset_todos calls out → parents_precede parent_id calls.
Proof.
  induction 1 as [p|p todo rest e|p todo rest id below e Hb IHb
                 |p todo rest id below n after out Hb IHb Ha IHa].
  - apply parents_precede_nil.
  - by apply parents_precede_refused.
  - rewrite <- (app_nil_r below).
    apply parents_precede_node; [done|done|apply parents_precede_nil].
  - by apply parents_precede_node.
Qed.

(** A trace holds calls to the todo service only. *)
Lemma TodoTrace_todo_calls parent_id preset_todos calls out :
  TodoTrace tag_group_id tag_name_to_id parent_id preset_todos calls out →
  List.filter is_todo_call calls = calls
  ∧ List.filter is_tag_call calls = []
  ∧ List.filter is_tag_group_call calls = [].
Proof.
  induction 1 as [p|p todo rest e|p todo rest id below e Hb IHb
                 |p todo rest id below n after out Hb IHb Ha IHa]; simpl.
  - done.
  - done.
  - destruct IHb as (-> & -> & ->). done.
  - destruct IHb as (Hb1 & Hb2 & Hb3), IHa as (Ha1 & Ha2 & Ha3).
    rewrite !List.filter_app, Hb1, Hb2, Hb3, Ha1, Ha2, Ha3. done.
Qed.

(** A trace that returns holds one call per node, in document order,
    and returns the count of the forest. *)
Lemma TodoTrace_returned parent_id preset_todos calls out :
  TodoTrace tag_group_id tag_name_to_id parent_id preset_todos calls out →
  ∀ n, out = Ok n →
    n = _count_todos_recursive preset_todos
    ∧ length calls = _count_todos_recursive preset_todos
    ∧ omap requested calls
      = map (fun todo => (title todo, description todo)) (all_nodes preset_todos).
Proof.
  induction 1 as [p|p todo rest e|p todo rest id below e Hb IHb
                 |p todo rest id below n after out Hb IHb Ha IHa];
    intros n' Hn'; try discriminate Hn'.
  - by injection Hn' as <-.
  - destruct out as [k|e]; [|discriminate Hn']. injection Hn' as <-.
    destruct (IHb n eq_refl) as (-> & Hlb & Hob).
    destruct (IHa k eq_refl) as (-> & Hla & Hoa).
    rewrite _count_todos_recursive_cons, all_nodes_cons.
    split; [lia|]. split.
    + simpl. rewrite length_app. lia.
    + simpl. by rewrite omap_app, map_app, Hob, Hoa.
Qed.

(** A trace that raises ends with the refused call. *)
Lemma TodoTrace_raised parent_id preset_todos calls out :
  TodoTrace tag_group_id tag_name_to_id parent_id preset_todos calls out →
  ∀ e, out = Raise e → ∃ req, last calls = Some (CreateTodo req (Raise e)).
Proof.
  induction 1 as [p|p todo rest e|p todo rest id below e Hb IHb
                 |p todo rest id below n after out Hb IHb Ha IHa];
    intros e' He'; try discriminate He'.
  - injection He' as <-. by eexists.
  - destruct (IHb _ He') as [req Hreq]. exists req.
    destruct below; [done|]. done.
  - destruct out as [k|e]; [discriminate He'|]. injection He' as <-.
    destruct (IHa _ eq_refl) as [req Hreq]. exists req.
    change (CreateTodo ?c ?o :: below ++ after) with ((CreateTodo c o :: below) ++ after).
    destruct after as [|c after]; [done|].
    by rewrite last_app, Hreq.
Qed.

(** A returning trace of [todo :: rest]: the call for [todo], the trace
    of its children, the trace of [rest]. *)
Lemma TodoTrace_cons_inv parent_id todo rest calls n :
  TodoTrace tag_group_id tag_name_to_id parent_id (todo :: rest) calls (Ok n) →
  ∃ todo_id below after nb na,
    calls = CreateTodo (todo_request tag_group_id
                          (tag_ids_of tag_name_to_id (tag_names todo)) parent_id todo)
                       (Ok todo_id) :: below ++ after
    ∧ TodoTrace tag_group_id tag_name_to_id (Some todo_id) (items (children todo))
        below (Ok nb)
    ∧ TodoTrace tag_group_id tag_name_to_id parent_id rest after (Ok na)
    ∧ n = 1 + nb + na.
Proof.
  intros Ht. inversion Ht as [| | |p t r todo_id below nb after out Hb Ha]; subst.
  destruct out as [na|e]; [|discriminate].
  match goal with Hn : result_map _ _ = Ok n |- _ => injection Hn as <- end.
  by exists todo_id, below, after, nb, na.
Qed.

(** A returning trace of two lists of siblings is the trace of the first
    followed by the trace of the second. *)
Lemma TodoTrace_app_inv parent_id before after calls n :
  TodoTrace tag_group_id tag_name_to_id parent_id (before ++ after) calls (Ok n) →
  ∃ calls1 calls2 n1 n2,
    calls = calls1 ++ calls2
    ∧ TodoTrace tag_group_id tag_name_to_id parent_id before calls1 (Ok n1)
    ∧ TodoTrace tag_group_id tag_name_to_id parent_id after calls2 (Ok n2).
Proof.
  revert calls n. induction before as [|todo rest IH]; intros calls n Ht.
  - exists [], calls, 0, n. split; [done|]. split; [apply todo_trace_done|done].
  - simpl in Ht. apply TodoTrace_cons_inv in Ht
      as (todo_id & below & tail & nb & na & -> & Hb & Htail & ->).
    destruct (IH _ _ Htail) as (calls1 & calls2 & n1 & n2 & -> & H1 & H2).
    eexists (_ :: below ++ calls1), calls2, _, n2.
    split; [by rewrite app_comm_cons, app_assoc|]. split; [|done].
    apply (todo_trace_created _ _ _ _ _ _ _ _ _ (Ok n1) Hb H1).
Qed.

End TodoTraceFacts.

(** ** Traces of the tag loop *)

Section TagTraceFacts.
Variable group_id : UUID.

Lemma no_tag_named_nil name : no_tag_named [] name.
Proof. intros j req out Hj. by rewrite lookup_nil in Hj. Qed.

Lemma no_tag_named_cons req out calls name :
  no_tag_named (CreateTag req out :: calls) name
  ↔ TagCreate.name req ≠ name ∧ no_tag_named calls name.
Proof.
  split.
  - intros Hno. split; [by apply (Hno 0 req out)|].
    intros j req' out' Hj. by apply (Hno (S j) req' out').
  - intros [Hne Hno] [|j] req' out' Hj; simpl in Hj.
    + by injection Hj as <- <-.
    + by apply (Hno j req' out').
Qed.

Lemma most_recent_tag_here req id calls :
  no_tag_named calls (TagCreate.name req) →
  most_recent_tag (CreateTag req (Ok id) :: calls) (TagCreate.name req) id.
Proof.
  intros Hno. exists 0, req. split; [done|]. split; [done|].
  intros [|j] req' out' Hlt Hj; [lia|]. by apply (Hno j req' out').
Qed.

Lemma most_recent_tag_later c calls name id :
  most_recent_tag calls name id → most_recent_tag (c :: calls) name id.
Proof.
  intros (i & req & Hi & Hname & Hlast). exists (S i), req.
  split; [done|]. split; [done|].
  intros [|j] req' out' Hlt Hj; [lia|]. apply (Hlast j req' out'); [lia|done].
Qed.

Lemma most_recent_tag_cons_inv req out calls name id :
  most_recent_tag (CreateTag req out :: calls) name id →
  (out = Ok id ∧ TagCreate.name req = name ∧ no_tag_named calls name)
  ∨ most_recent_tag calls name id.
Proof.
  intros ([|i] & req' & Hi & Hname & Hlast); simpl in Hi.
  - left. injection Hi as <- <-. split; [done|]. split; [done|].
    intros j req'' out'' Hj. apply (Hlast (S j) req'' out''); [lia|done].
  - right. exists i, req'. split; [done|]. split; [done|].
    intros j req'' out'' Hlt Hj. apply (Hlast (S j) req'' out''); [lia|done].
Qed.

(** The mapping a returning trace ends with: under every name, the
    identifier of the most recent creation of a tag of that name, or what
    the loop started with when no tag of that name was created. *)
Lemma TagTrace_lookup start preset_tags calls out :
  TagTrace group_id start preset_tags calls out →
  ∀ tag_name_to_id, out = Ok tag_name_to_id →
  ∀ name id,
    tag_name_to_id !! name = Some id
    ↔ most_recent_tag calls name id
      ∨ (start !! name = Some id ∧ no_tag_named calls name).
Proof.
  induction 1 as [m0|m0 t rest e|m0 t rest tid after out Ha IHa];
    intros m Hm name id; try discriminate Hm.
  - injection Hm as <-. split.
    + intros Hl. right. split; [done|apply no_tag_named_nil].
    + intros [(i & req & Hi & _)|[Hl _]]; [by rewrite lookup_nil in Hi|done].
  - rewrite (IHa m Hm name id). split.
    + intros [Hrecent|[Hl Hno]].
      * left. by apply most_recent_tag_later.
      * destruct (decide (tag_name t = name)) as [<-|Hne].
        -- rewrite lookup_insert_eq in Hl. injection Hl as <-.
           left. by apply (most_recent_tag_here (tag_request group_id t)).
        -- rewrite lookup_insert_ne in Hl by done.
           right. split; [done|]. by apply no_tag_named_cons.
    + intros [Hrecent|[Hl Hno]].
      * apply most_recent_tag_cons_inv in Hrecent as [(Hid & Hname & Hno)|Hrecent];
          [|by left].
        right. injection Hid as <-. simpl in Hname. subst name.
        split; [apply lookup_insert_eq|done].
      * apply no_tag_named_cons in Hno as [Hne Hno]. simpl in Hne.
        right. split; [by rewrite lookup_insert_ne|done].
Qed.

(** A returning trace holds one successful call per preset tag, in the
    order of the list. *)
Lemma TagTrace_returned start preset_tags calls out :
  TagTrace group_id start preset_tags calls out →
  ∀ tag_name_to_id, out = Ok tag_name_to_id →
  Forall2 (fun preset_tag call =>
             ∃ id, call = CreateTag (tag_request group_id preset_tag) (Ok id))
          preset_tags calls.
Proof.
  induction 1 as [m0|m0 t rest e|m0 t rest tid after out Ha IHa];
    intros m Hm; try discriminate Hm.
  - constructor.
  - constructor; [by exists tid|by apply (IHa m)].
Qed.

(** A trace holds calls that create tags only. *)
Lemma TagTrace_tag_calls start preset_tags calls out :
  TagTrace group_id start preset_tags calls out →
  List.filter is_tag_call calls = calls
  ∧ List.filter is_todo_call calls = []
  ∧ List.filter is_tag_group_call calls = [].
Proof.
  induction 1 as [m0|m0 t rest e|m0 t rest tid after out Ha IHa]; simpl; [done..|].
  destruct IHa as (-> & -> & ->). done.
Qed.

End TagTraceFacts.

Section CreateTagsFacts.
Context `{Services}.
Variable group_id : UUID.

(** Every run of the tag loop issues a [TagTrace]. *)
Lemma for_each_tags_trace preset_tags : ∀ start s,
  let r := for_each (fun (tag_name_to_id : gmap string UUID) preset_tag =>
             bind (tag_service_create_tag (tag_request group_id preset_tag))
                  (fun tag_id => ret (<[tag_name preset_tag := tag_id]> tag_name_to_id)))
             preset_tags start s in
  TagTrace group_id start preset_tags (issued r) (returned r).
Proof.
  induction preset_tags as [|t rest IH]; intros start s; cbv zeta.
  - apply tag_trace_done.
  - cbn [for_each]. rewrite bind_eq, bind_eq, tag_service_create_tag_run.
    cbn [returned store_after issued].
    destruct (create_tag _ s).1 as [tag_id|e]; cbn; [|apply tag_trace_refused].
    apply tag_trace_created. apply IH.
Qed.

Lemma create_tags_trace preset_tags s :
  TagTrace group_id ∅ preset_tags (issued (create_tags preset_tags group_id s))
    (returned (create_tags preset_tags group_id s)).
Proof. apply for_each_tags_trace. Qed.

(** With a tag service that never fails, the tag loop returns. *)
Lemma create_tags_returns preset_tags s :
  never_fails create_tag →
  ∃ tag_name_to_id, returned (create_tags preset_tags group_id s) = Ok tag_name_to_id.
Proof.
  intros Hnf. unfold create_tags. generalize (∅ : gmap string UUID). revert s.
  induction preset_tags as [|t rest IH]; intros s start.
  - by exists start.
  - cbn [for_each]. rewrite bind_eq, bind_eq, tag_service_create_tag_run.
    cbn [returned store_after issued].
    destruct (Hnf (TagCreate.mk (tag_name t) (tag_color t) (tag_description t) group_id) s)
      as [tag_id ->].
    cbn. apply IH.
Qed.

End CreateTagsFacts.

(** ** The pipeline of [initialize_from_preset] *)

Section InitializeFacts.
Context `{Runtime} `{Services}.

(** An exception of [get_preset] leaves [initialize_from_preset] before
    any collaborator is called. *)
Lemma initialize_from_preset_not_loaded preset_name e s :
  get_preset preset_name = Raise e →
  initialize_from_preset preset_name s = mkRun (Raise e) s [].
Proof. intros E. unfold initialize_from_preset. rewrite bind_eq, E. reflexivity. Qed.

(** Load, create the tag group, create the tags, create the todos. *)
Lemma initialize_from_preset_loaded preset_name preset s :
  get_preset preset_name = Ok preset →
  initialize_from_preset preset_name s =
  let req := tag_group_request preset in
  match (create_tag_group req s).1 with
  | Raise e => mkRun (Raise e) (create_tag_group req s).2 [CreateTagGroup req (Raise e)]
  | Ok group_id =>
      let rt := create_tags (tags preset) group_id (create_tag_group req s).2 in
      match returned rt with
      | Raise e =>
          mkRun (Raise e) (store_after rt) (CreateTagGroup req (Ok group_id) :: issued rt)
      | Ok tag_name_to_id =>
          let rd := _create_todos_recursive (todos preset) group_id tag_name_to_id None
                      (store_after rt) in
          mkRun (result_map (mkPresetInitializeResult preset_name (uuid_str group_id)
                               (length (tags preset))) (returned rd))
                (store_after rd)
                (CreateTagGroup req (Ok group_id) :: issued rt ++ issued rd)
      end
  end.
Proof.
  intros E. unfold initialize_from_preset. rewrite E.
  change (lift (Ok ?x)) with (ret x). rewrite bind_ret_l, bind_eq.
  fold (tag_group_request preset). rewrite tag_service_create_tag_group_run.
  cbn [returned store_after issued]. cbv zeta.
  destruct (create_tag_group _ s).1 as [group_id|e]; [|done].
  rewrite bind_eq.
  destruct (create_tags _ _ _) as [[tag_name_to_id|e] s2 calls2];
    cbn [returned store_after issued]; [|done].
  rewrite bind_eq.
  destruct (_create_todos_recursive _ _ _ _ _) as [[n|e] s3 calls3]; cbn; [|done].
  by rewrite app_nil_r.
Qed.

End InitializeFacts.

(** ** The claims about the repository and the pipeline *)




Lemma count_calls_cons kind c calls :
  count_calls kind (c :: calls) = (if kind c then 1 else 0) + count_calls kind calls.
Proof. unfold count_calls. simpl. by destruct (kind c). Qed.

Lemma count_calls_app kind calls1 calls2 :
  count_calls kind (calls1 ++ calls2) = count_calls kind calls1 + count_calls kind calls2.
Proof. unfold count_calls. by rewrite List.filter_app, length_app. Qed.

(** C4: for a preset that loads, a call of [initialize_from_preset] that
    returns has issued exactly one tag-group creation, [len(preset.tags)]
    tag creations and [_count_todos_recursive(preset.todos)] todo
    creations, the tag-group creation first, and its result carries the
    identifier answered for the group, [len(preset.tags)] and
    [_count_todos_recursive(preset.todos)]; and the call does return when
    no collaborator fails. *)
Theorem initialize_from_preset_creates `{Runtime} `{Services}
    (preset_name : string) (preset : Preset) (s : Store) :
  get_preset preset_name = Ok preset →
  let r := initialize_from_preset preset_name s in
  (∀ result, returned r = Ok result →
     count_calls is_tag_group_call (issued r) = 1
     ∧ count_calls is_tag_call (issued r) = length (tags preset)
     ∧ count_calls is_todo_call (issued r) = _count_todos_recursive (todos preset)
     ∧ ∃ group_id,
         head (issued r) = Some (CreateTagGroup (tag_group_request preset) (Ok group_id))
         ∧ tag_group_id result = uuid_str group_id
         ∧ tags_created result = length (tags preset)
         ∧ todos_created result = _count_todos_recursive (todos preset))
  ∧ (never_fails create_tag_group → never_fails create_tag → never_fails create_todo →
     ∃ result, returned r = Ok result).
Proof.
  intros Hget. cbv zeta. rewrite (initialize_from_preset_loaded _ _ _ Hget). cbv zeta.
  split.
  - destruct (create_tag_group _ s).1 as [group_id|e]; [|done].
    pose proof (create_tags_trace group_id (tags preset)
                  (create_tag_group (tag_group_request preset) s).2) as Htags.
    destruct (create_tags _ _ _) as [[tag_name_to_id|e] s2 calls2];
      cbn [returned store_after issued] in *; [|done].
    pose proof (_create_todos_recursive_trace group_id tag_name_to_id (todos preset)
                  None s2) as Htodos. cbv zeta in Htodos.
    destruct (_create_todos_recursive _ _ _ _ _) as [[n|e] s3 calls3];
      cbn [returned store_after issued result_map] in *; [|done].
    intros result [= <-].
    pose proof (Forall2_length _ _ _ (TagTrace_returned _ _ _ _ _ Htags _ eq_refl)) as Hlen.
    destruct (TagTrace_tag_calls _ _ _ _ _ Htags) as (Ht1 & Ht2 & Ht3).
    destruct (TodoTrace_todo_calls _ _ _ _ _ _ Htodos) as (Hd1 & Hd2 & Hd3).
    destruct (TodoTrace_returned _ _ _ _ _ _ Htodos n eq_refl) as (Hn & Hlen3 & _).
    rewrite !count_calls_cons, !count_calls_app. unfold count_calls.
    rewrite Ht1, Ht2, Ht3, Hd1, Hd2, Hd3. simpl.
    split; [done|]. split; [lia|]. split; [lia|].
    exists group_id. by rewrite Hn.
  - intros Hgroup Htag Htodo.
    destruct (Hgroup (tag_group_request preset) s) as [group_id ->].
    destruct (create_tags_returns group_id (tags preset)
                (create_tag_group (tag_group_request preset) s).2 Htag)
      as [tag_name_to_id Ht].
    rewrite Ht.
    destruct (_create_todos_recursive_returns group_id tag_name_to_id (todos preset)
                Htodo None
                (store_after (create_tags (tags preset) group_id
                   (create_tag_group (tag_group_request preset) s).2)))
      as [n Hn].
    rewrite Hn. by eexists.
Qed.

Lemma counter_never_fails :
  never_fails (@create_tag_group Demo.counter)
  ∧ never_fails (@create_tag Demo.counter)
  ∧ never_fails (@create_todo Demo.counter).
Proof. repeat split; intros req s; by eexists. Qed.

(** The scenario preset: one tag group, one tag, two todos. *)
Lemma initialize_from_preset_creates_witness :
  let r := @initialize_from_preset (Demo.table true Demo.catalog) Demo.counter "study" 7%N in
  (∃ result, returned r = Ok result)
  ∧ count_calls is_tag_group_call (issued r) = 1
  ∧ count_calls is_tag_call (issued r) = 1
  ∧ count_calls is_todo_call (issued r) = 2.
Proof.
  cbv zeta.
  destruct (@initialize_from_preset_creates (Demo.table true Demo.catalog) Demo.counter
              "study" Demo.study 7%N eq_refl) as [Hcounts Hreturns].
  split.
  - apply Hreturns; apply counter_never_fails.
  - destruct (Hcounts _ eq_refl) as (H1 & H2 & H3 & _). by split.
Defined.

(** C9: the [preset_name] of the result is the name the call was given,
    whatever ["name"] the loaded document holds. *)
Theorem result_carries_requested_name `{Runtime} `{Services}
    (preset_name : string) (s : Store) (result : PresetInitializeResult) :
  returned (initialize_from_preset preset_name s) = Ok result →
  Schema.preset_name result = preset_name.
Proof.
  destruct (get_preset preset_name) as [preset|e] eqn:Hget.
  - rewrite (initialize_from_preset_loaded _ _ _ Hget). cbv zeta.
    destruct (create_tag_group _ s).1 as [group_id|e]; [|done].
    destruct (returned (create_tags _ _ _)) as [tag_name_to_id|e]; [|done].
    destruct (returned (_create_todos_recursive _ _ _ _ _)) as [n|e]; [|done].
    by intros [= <-].
  - by rewrite (initialize_from_preset_not_loaded _ _ _ Hget).
Qed.

(** The document [renamed.json] holds the name ["study"]; the result of
    initializing from it says ["renamed"]. *)
Lemma result_carries_requested_name_witness :
  ∃ preset result,
    @get_preset (Demo.table true Demo.catalog) "renamed" = Ok preset
    ∧ name preset = "study"
    ∧ returned (@initialize_from_preset (Demo.table true Demo.catalog) Demo.counter
                  "renamed" 0%N) = Ok result
    ∧ Schema.preset_name result = "renamed".
Proof.
  exists Demo.study. eexists. split; [reflexivity|]. split; [reflexivity|].
  split; [reflexivity|].
  apply (@result_carries_requested_name (Demo.table true Demo.catalog) Demo.counter
           "renamed" 0%N).
  reflexivity.
Defined.

(** ** The claims about the todo traversal *)

(** C5: in a materialization of a forest from the root level, the
    [parent_id] of every todo request is [None] or the identifier answered
    by a todo creation issued earlier in the same invocation, never a
    later one; the calls form a [TodoTrace]; a traversal that returns has
    created the nodes in document order; and around every root [todo] its
    calls split into the calls for the siblings before it, the call
    creating [todo], the calls for its children under the identifier just
    answered, and the calls for the siblings after it. *)
Theorem todos_reference_earlier_parents `{Services}
    (preset_todos : list PresetTodo) (tag_group_id : UUID)
    (tag_name_to_id : gmap string UUID) (s : Store) :
  let r := _create_todos_recursive preset_todos tag_group_id tag_name_to_id None s in
  parents_precede None (issued r)
  ∧ TodoTrace tag_group_id tag_name_to_id None preset_todos (issued r) (returned r)
  ∧ (∀ n, returned r = Ok n →
       omap requested (issued r)
       = map (fun todo => (title todo, description todo)) (all_nodes preset_todos))
  ∧ (∀ n before todo after,
       returned r = Ok n → preset_todos = before ++ todo :: after →
       ∃ calls_before todo_id calls_below calls_after,
         issued r
         = calls_before
           ++ CreateTodo (todo_request tag_group_id
                            (tag_ids_of tag_name_to_id (tag_names todo)) None todo)
                         (Ok todo_id)
              :: calls_below ++ calls_after
         ∧ (∃ k, TodoTrace tag_group_id tag_name_to_id None before calls_before (Ok k))
         ∧ (∃ k, TodoTrace tag_group_id tag_name_to_id (Some todo_id)
                   (items (children todo)) calls_below (Ok k))
         ∧ (∃ k, TodoTrace tag_group_id tag_name_to_id None after calls_after (Ok k))).
Proof.
  cbv zeta.
  pose proof (_create_todos_recursive_trace tag_group_id tag_name_to_id preset_todos
                None s) as Htrace. cbv zeta in Htrace.
  split; [by eapply TodoTrace_parents_precede|]. split; [done|]. split.
  - intros n Hn. by destruct (TodoTrace_returned _ _ _ _ _ _ Htrace n Hn) as (_ & _ & ?).
  - intros n before todo after Hn ->. rewrite Hn in Htrace.
    apply TodoTrace_app_inv in Htrace as (calls1 & calls2 & n1 & n2 & Hcalls & H1 & H2).
    apply TodoTrace_cons_inv in H2
      as (todo_id & below & tail & nb & na & -> & Hb & Htail & _).
    exists calls1, todo_id, below, tail. rewrite Hcalls.
    split; [done|]. split; [by exists n1|]. split; [by exists nb|by exists na].
Qed.

(** On the example forest the five todos are created in document order,
    each child under the identifier of its parent. *)
Lemma todos_reference_earlier_parents_witness :
  let r := @_create_todos_recursive Demo.counter Demo.forest 1%N ∅ None 100%N in
  returned r = Ok 5
  ∧ omap requested (issued r)
    = [("Parent 1", None); ("Child 1.1", None); ("Child 1.2", None);
       ("Grandchild 1.2.1", None); ("Parent 2", None)]
  ∧ parents_precede None (issued r).
Proof.
  cbv zeta.
  destruct (@todos_reference_earlier_parents Demo.counter Demo.forest 1%N ∅ 100%N)
    as (Hparents & _ & Horder & _).
  split; [reflexivity|]. split; [|exact Hparents].
  apply (Horder 5). reflexivity.
Defined.

(** C6: the value returned by [_create_todos_recursive] is the pure count
    [_count_todos_recursive] of the same forest, and the traversal does
    return it when the todo service never fails. *)
Theorem create_todos_returns_count `{Services}
    (preset_todos : list PresetTodo) (tag_group_id : UUID)
    (tag_name_to_id : gmap string UUID) (parent_id : option UUID) (s : Store) :
  let r := _create_todos_recursive preset_todos tag_group_id tag_name_to_id parent_id s in
  (∀ n, returned r = Ok n → n = _count_todos_recursive preset_todos)
  ∧ (never_fails create_todo → returned r = Ok (_count_todos_recursive preset_todos)).
Proof.
  cbv zeta.
  pose proof (_create_todos_recursive_trace tag_group_id tag_name_to_id preset_todos
                parent_id s) as Htrace. cbv zeta in Htrace.
  assert (Hcount : ∀ n,
    returned (_create_todos_recursive preset_todos tag_group_id tag_name_to_id
                parent_id s) = Ok n → n = _count_todos_recursive preset_todos).
  { intros n Hn. by destruct (TodoTrace_returned _ _ _ _ _ _ Htrace n Hn) as (? & _). }
  split; [done|]. intros Hnf.
  destruct (_create_todos_recursive_returns tag_group_id tag_name_to_id preset_todos
              Hnf parent_id s) as [n Hn].
  by rewrite Hn, (Hcount n Hn).
Qed.

Lemma create_todos_returns_count_witness :
  returned (@_create_todos_recursive Demo.counter Demo.forest 1%N ∅ (Some 9%N) 100%N)
  = Ok (_count_todos_recursive Demo.forest).
Proof.
  apply (@create_todos_returns_count Demo.counter Demo.forest 1%N ∅ (Some 9%N) 100%N).
  apply counter_never_fails.
Defined.

(** The request issued for one node, as the first call of its turn of the
    loop. *)
Lemma create_todo_step_first_call `{Services} tag_group_id tag_name_to_id parent_id
    created_count preset_todo s :
  let req := todo_request tag_group_id
               (tag_ids_of tag_name_to_id (tag_names preset_todo)) parent_id preset_todo in
  head (issued (create_todo_step tag_group_id tag_name_to_id parent_id created_count
                  preset_todo s))
  = Some (CreateTodo req (create_todo req s).1).
Proof.
  cbv zeta. rewrite create_todo_step_eq. cbv zeta.
  by destruct (create_todo _ s).1.
Qed.

(** C8: for a todo whose [tag_names] is a non-empty list, resolving the
    names raises nothing, and the todo is created with the identifiers of
    the names the mapping knows, in the order of the list: each name
    contributes its identifier when the mapping has it and nothing when it
    has not. *)
Theorem unresolved_tag_names_are_dropped `{Services}
    (tag_group_id : UUID) (tag_name_to_id : gmap string UUID)
    (parent_id : option UUID) (created_count : nat) (preset_todo : PresetTodo)
    (names : list string) (s : Store) :
  tag_names preset_todo = Some names → names ≠ [] →
  let ids := omap (fun name => tag_name_to_id !! name) names in
  let req := todo_request tag_group_id (Some ids) parent_id preset_todo in
  resolve_tag_ids tag_name_to_id (tag_names preset_todo) = Ok (Some ids)
  ∧ head (issued (create_todo_step tag_group_id tag_name_to_id parent_id created_count
                    preset_todo s))
    = Some (CreateTodo req (create_todo req s).1)
  ∧ (∀ before name after, names = before ++ name :: after →
       ids = omap (fun name => tag_name_to_id !! name) before
             ++ match tag_name_to_id !! name with Some id => [id] | None => [] end
             ++ omap (fun name => tag_name_to_id !! name) after).
Proof.
  intros Hnames Hne. cbv zeta.
  assert (Hids : tag_ids_of tag_name_to_id (tag_names preset_todo)
                 = Some (omap (fun name => tag_name_to_id !! name) names)).
  { rewrite Hnames. unfold tag_ids_of. by destruct names. }
  split; [by rewrite resolve_tag_ids_ok, Hids|]. split.
  - pose proof (create_todo_step_first_call tag_group_id tag_name_to_id parent_id
                  created_count preset_todo s) as Hfirst.
    cbv zeta in Hfirst. by rewrite Hids in Hfirst.
  - intros before name after ->. rewrite omap_app. simpl.
    by destruct (tag_name_to_id !! name).
Qed.

(** With only ["Math"] known, the names ["Physics"; "Math"; "Art"] leave
    the identifier of ["Math"] alone. *)
Lemma unresolved_tag_names_are_dropped_witness :
  head (issued (@create_todo_step Demo.counter 1%N {["Math" := 8%N]} None 0
                  (mkPresetTodo "Read" None (Some ["Physics"; "Math"; "Art"]) None) 9%N))
  = Some (CreateTodo (TodoCreate.mk "Read" None 1%N (Some [8%N]) None) (Ok 9%N)).
Proof.
  destruct (@unresolved_tag_names_are_dropped Demo.counter 1%N {["Math" := 8%N]} None 0
              (mkPresetTodo "Read" None (Some ["Physics"; "Math"; "Art"]) None)
              ["Physics"; "Math"; "Art"] 9%N eq_refl ltac:(discriminate))
    as (_ & Hfirst & _).
  exact Hfirst.
Defined.

(** C10: a todo whose [tag_names] is [None] or the empty list is created
    with [tag_ids = None], whereas a todo whose [tag_names] is non-empty
    and holds unresolved names only is created with [tag_ids] the empty
    list. *)
Theorem empty_and_unresolved_tag_names_differ `{Services}
    (tag_group_id : UUID) (tag_name_to_id : gmap string UUID)
    (parent_id : option UUID) (created_count : nat) (preset_todo : PresetTodo)
    (s : Store) :
  let first := head (issued (create_todo_step tag_group_id tag_name_to_id parent_id
                               created_count preset_todo s)) in
  let req tag_ids := todo_request tag_group_id tag_ids parent_id preset_todo in
  (tag_names preset_todo = None ∨ tag_names preset_todo = Some [] →
     first = Some (CreateTodo (req None) (create_todo (req None) s).1))
  ∧ (∀ names, tag_names preset_todo = Some names → names ≠ [] →
       (∀ name, name ∈ names → tag_name_to_id !! name = None) →
       first = Some (CreateTodo (req (Some [])) (create_todo (req (Some [])) s).1)).
Proof.
  cbv zeta.
  pose proof (create_todo_step_first_call tag_group_id tag_name_to_id parent_id
                created_count preset_todo s) as Hfirst. cbv zeta in Hfirst.
  split.
  - intros Hfalsy.
    assert (tag_ids_of tag_name_to_id (tag_names preset_todo) = None) as Hids
      by (by destruct Hfalsy as [-> | ->]).
    by rewrite Hids in Hfirst.
  - intros names Hnames Hne Hunknown.
    assert (tag_ids_of tag_name_to_id (tag_names preset_todo) = Some []) as Hids.
    { rewrite Hnames. unfold tag_ids_of. destruct names as [|name rest]; [done|].
      cbn [truthy items]. f_equal.
      assert (Hall : ∀ name', name' ∈ name :: rest → tag_name_to_id !! name' = None)
        by done.
      clear Hnames Hne Hunknown Hfirst.
      induction (name :: rest) as [|a l IH]; [done|]. simpl.
      rewrite (Hall a) by left. apply IH. intros b Hb. apply Hall. by right. }
    by rewrite Hids in Hfirst.
Qed.

Lemma empty_and_unresolved_tag_names_differ_witness :
  (∀ names, names = None ∨ names = Some [] →
     head (issued (@create_todo_step Demo.counter 1%N {["Math" := 8%N]} None 0
                     (mkPresetTodo "Read" None names None) 9%N))
     = Some (CreateTodo (TodoCreate.mk "Read" None 1%N None None) (Ok 9%N)))
  ∧ head (issued (@create_todo_step Demo.counter 1%N {["Math" := 8%N]} None 0
                    (mkPresetTodo "Read" None (Some ["Physics"]) None) 9%N))
    = Some (CreateTodo (TodoCreate.mk "Read" None 1%N (Some []) None) (Ok 9%N)).
Proof.
  split.
  - intros names Hnames.
    by apply (proj1 (@empty_and_unresolved_tag_names_differ Demo.counter 1%N
                       {["Math" := 8%N]} None 0 (mkPresetTodo "Read" None names None) 9%N)).
  - apply (proj2 (@empty_and_unresolved_tag_names_differ Demo.counter 1%N
                    {["Math" := 8%N]} None 0
                    (mkPresetTodo "Read" None (Some ["Physics"]) None) 9%N)
             ["Physics"]); [reflexivity|discriminate|].
    intros name Hname. apply list_elem_of_singleton in Hname as ->. reflexivity.
Defined.

(** ** The claim about the tag mapping *)

(** C7: the tag loop creates one tag per entry of the preset's tag list,
    in the order of the list, and the mapping it builds holds, under each
    name, the identifier answered by the most recent creation of a tag of
    that name: a later entry of the same name overwrites an earlier one,
    and a name no entry has is not in the mapping.  The loop returns when
    the tag service never fails. *)
Theorem tag_name_mapping_last_write_wins `{Services}
    (preset_tags : list PresetTag) (group_id : UUID) (s : Store) :
  let r := create_tags preset_tags group_id s in
  (never_fails create_tag → ∃ tag_name_to_id, returned r = Ok tag_name_to_id)
  ∧ (∀ tag_name_to_id, returned r = Ok tag_name_to_id →
       Forall2 (fun preset_tag call =>
                  ∃ id, call = CreateTag (tag_request group_id preset_tag) (Ok id))
               preset_tags (issued r)
       ∧ ∀ name id,
           tag_name_to_id !! name = Some id ↔ most_recent_tag (issued r) name id).
Proof.
  cbv zeta. split; [by apply create_tags_returns|].
  intros tag_name_to_id Hm.
  pose proof (create_tags_trace group_id preset_tags s) as Htrace.
  split; [by apply (TagTrace_returned _ _ _ _ _ Htrace tag_name_to_id)|].
  intros name id.
  rewrite (TagTrace_lookup _ _ _ _ _ Htrace tag_name_to_id Hm name id).
  split; [|by left]. intros [Hrecent|[Hempty _]]; [done|].
  by rewrite lookup_empty in Hempty.
Qed.

(** Two preset tags called ["Math"] around one called ["Art"]: the mapping
    keeps the identifier of the second ["Math"]. *)
Lemma tag_name_mapping_last_write_wins_witness :
  let r := @create_tags Demo.counter
             [mkPresetTag "Math" "#00FF00" None; mkPresetTag "Art" "#0000FF" None;
              mkPresetTag "Math" "#FF00FF" None] 7%N 8%N in
  (∃ tag_name_to_id, returned r = Ok tag_name_to_id)
  ∧ most_recent_tag (issued r) "Math" 10%N
  ∧ ¬ most_recent_tag (issued r) "Math" 8%N.
Proof.
  cbv zeta.
  destruct (@tag_name_mapping_last_write_wins Demo.counter
              [mkPresetTag "Math" "#00FF00" None; mkPresetTag "Art" "#0000FF" None;
               mkPresetTag "Math" "#FF00FF" None] 7%N 8%N) as [Hreturns Hmap].
  split; [apply Hreturns; apply counter_never_fails|].
  destruct (Hmap _ eq_refl) as [_ Hlookup]. split.
  - apply Hlookup. reflexivity.
  - intros Hold. apply Hlookup in Hold. vm_compute in Hold. discriminate Hold.
Defined.

(** * Further properties *)

Set Warnings "-clear-no-such-hyp".

(** ** Counting *)

Lemma all_nodes_app (before after : list PresetTodo) :
  all_nodes (before ++ after) = all_nodes before ++ all_nodes after.
Proof. unfold all_nodes. apply flat_map_app. Qed.

(** X1: the count of two forests put side by side is the sum of their
    counts. *)
Theorem count_todos_recursive_app (before after : list PresetTodo) :
  _count_todos_recursive (before ++ after)
  = _count_todos_recursive before + _count_todos_recursive after.
Proof. by rewrite !count_is_length_all_nodes, all_nodes_app, length_app. Qed.

Lemma count_at_least_length (forest : list PresetTodo) :
  (length forest ≤ _count_todos_recursive forest)%nat.
Proof.
  induction forest as [|todo rest IH]; [done|].
  rewrite _count_todos_recursive_cons. simpl. lia.
Qed.

(** X2: the count is never below the number of top-level nodes, and
    equals it exactly when no top-level node has a non-empty
    [children]. *)
Theorem count_todos_recursive_flat (forest : list PresetTodo) :
  (length forest ≤ _count_todos_recursive forest)%nat
  ∧ (_count_todos_recursive forest = length forest
     ↔ Forall (fun todo => truthy (children todo) = false) forest).
Proof.
  split; [apply count_at_least_length|].
  induction forest as [|todo rest IH]; [done|].
  rewrite _count_todos_recursive_cons, Forall_cons. simpl.
  pose proof (count_at_least_length rest) as Hrest.
  pose proof (count_at_least_length (items (children todo))) as Hkids.
  split.
  - intros Heq. split.
    + destruct (children todo) as [[|kid kids]|]; [done| |done].
      cbn [items length] in Hkids, Heq. lia.
    + apply IH. lia.
  - intros [Hflat Hrestflat]. apply IH in Hrestflat.
    rewrite (count_items_falsy _ Hflat).
    change (_count_todos_recursive []) with 0. lia.
Qed.

(** ** The listing and the initialization agree *)

Lemma get_preset_loaded_inv `{Runtime} preset_name preset :
  get_preset preset_name = Ok preset →
  _load_preset_file (_get_preset_path preset_name) = Ok preset.
Proof.
  unfold get_preset.
  by destruct (path_exists (_get_preset_path preset_name)) as [[|]|e].
Qed.

(** X3: when the listing gets past every matched file and the file of
    [preset_name] is among them, a returning [initialize_from_preset]
    creates as many tags and todos as the listing announces for that
    document. *)
Theorem listing_announces_what_initialize_creates `{Runtime} `{Services}
    (preset_name : string) (preset : Preset) (s : Store)
    (result : PresetInitializeResult) :
  path_exists PRESETS_DIR = Ok true →
  (∀ f, f ∈ glob PRESETS_DIR "*.json" → settles f) →
  _get_preset_path preset_name ∈ glob PRESETS_DIR "*.json" →
  get_preset preset_name = Ok preset →
  returned (initialize_from_preset preset_name s) = Ok result →
  ∃ presets info,
    list_presets = Ok presets ∧ info ∈ presets
    ∧ info_name info = name preset
    ∧ tag_count info = tags_created result
    ∧ todo_count info = todos_created result.
Proof.
  intros Hdir Hsettle Hin Hget Hinit.
  exists (omap listed (glob PRESETS_DIR "*.json")), (preset_info preset).
  split.
  { unfold list_presets. rewrite Hdir. simpl. by rewrite list_presets_loop_settled. }
  split.
  { apply list_elem_of_omap. exists (_get_preset_path preset_name). split; [done|].
    unfold listed. by rewrite (get_preset_loaded_inv _ _ Hget). }
  rewrite (initialize_from_preset_loaded _ _ _ Hget) in Hinit. cbv zeta in Hinit.
  destruct (create_tag_group _ s).1 as [group_id|e]; [|done].
  pose proof (create_tags_trace group_id (tags preset)
                (create_tag_group (tag_group_request preset) s).2) as Htags.
  destruct (create_tags _ _ _) as [[tag_name_to_id|e] s2 calls2];
    cbn [returned store_after issued] in *; [|done].
  pose proof (_create_todos_recursive_trace group_id tag_name_to_id (todos preset)
                None s2) as Htodos. cbv zeta in Htodos.
  destruct (_create_todos_recursive _ _ _ _ _) as [[n|e] s3 calls3];
    cbn [returned store_after issued result_map] in *; [|done].
  injection Hinit as <-.
  destruct (TodoTrace_returned _ _ _ _ _ _ Htodos n eq_refl) as (-> & _ & _).
  done.
Qed.

Lemma listing_announces_what_initialize_creates_witness :
  ∃ presets info,
    @list_presets (Demo.table true Demo.catalog) = Ok presets ∧ info ∈ presets
    ∧ info_name info = "study" ∧ tag_count info = 1 ∧ todo_count info = 2.
Proof.
  destruct (@listing_announces_what_initialize_creates
              (Demo.table true Demo.catalog) Demo.counter "renamed" Demo.study 0%N
              (mkPresetInitializeResult "renamed"
                 "00000000-0000-0000-0000-000000000000" 1 2))
    as (presets & info & H1 & H2 & H3 & H4 & H5);
    [reflexivity| |vm_compute; set_solver|reflexivity|reflexivity|].
  - intros f Hf e. simpl in Hf.
    repeat (apply elem_of_cons in Hf as [->|Hf]; [vm_compute; by intros [= <-]|]).
    by apply elem_of_nil in Hf.
  - by exists presets, info.
Defined.

(** ** Failures of the collaborators *)

Section FirstFailure.

Lemma stops_cons c calls err :
  succeeded c = true →
  stops_at_first_failure calls err → stops_at_first_failure (c :: calls) err.
Proof.
  intros Hc. destruct err as [e|]; simpl.
  - intros (front & last & -> & Hfront & Hlast).
    exists (c :: front), last. split; [done|]. split; [by constructor|done].
  - by constructor.
Qed.

Lemma stops_app calls1 calls2 err :
  Forall (fun c => succeeded c = true) calls1 →
  stops_at_first_failure calls2 err → stops_at_first_failure (calls1 ++ calls2) err.
Proof.
  induction 1 as [|c calls1 Hc _ IH]; [done|]. intros Hs.
  simpl. apply stops_cons; [done|by apply IH].
Qed.

Lemma stops_refused c e :
  answer c = Raise e → stops_at_first_failure [c] (Some e).
Proof. intros Hc. by exists [], c. Qed.

Lemma raised_result_map {A B} (f : A → B) (r : result A) :
  raised (result_map f r) = raised r.
Proof. by destruct r. Qed.

Lemma TodoTrace_stops tag_group_id tag_name_to_id parent_id preset_todos calls out :
  TodoTrace tag_group_id tag_name_to_id parent_id preset_todos calls out →
  stops_at_first_failure calls (raised out).
Proof.
  induction 1 as [p|p todo rest e|p todo rest id below e Hb IHb
                 |p todo rest id below n after out Hb IHb Ha IHa].
  - by constructor.
  - by apply stops_refused.
  - by apply stops_cons.
  - rewrite raised_result_map. apply stops_cons; [done|]. by apply stops_app.
Qed.

Lemma TagTrace_stops group_id start preset_tags calls out :
  TagTrace group_id start preset_tags calls out →
  stops_at_first_failure calls (raised out).
Proof.
  induction 1 as [m0|m0 t rest e|m0 t rest tid after out Ha IHa].
  - by constructor.
  - by apply stops_refused.
  - by apply stops_cons.
Qed.

End FirstFailure.

(** X4: [initialize_from_preset] stops at the first creation a
    collaborator refuses.  For a preset that loads, a call that returns
    has had every creation answered; a call that raises [e] raises the
    exception of the last creation it issued, and every creation before
    that one was answered. *)
Theorem initialize_from_preset_stops_at_first_failure `{Runtime} `{Services}
    (preset_name : string) (preset : Preset) (s : Store) :
  get_preset preset_name = Ok preset →
  let r := initialize_from_preset preset_name s in
  stops_at_first_failure (issued r) (raised (returned r)).
Proof.
  intros Hget. cbv zeta. rewrite (initialize_from_preset_loaded _ _ _ Hget). cbv zeta.
  destruct (create_tag_group _ s).1 as [group_id|e]; [|by apply stops_refused].
  pose proof (create_tags_trace group_id (tags preset)
                (create_tag_group (tag_group_request preset) s).2) as Htags.
  apply TagTrace_stops in Htags.
  destruct (create_tags _ _ _) as [[tag_name_to_id|e] s2 calls2];
    cbn [returned store_after issued raised] in *; [|by apply stops_cons].
  pose proof (_create_todos_recursive_trace group_id tag_name_to_id (todos preset)
                None s2) as Htodos. cbv zeta in Htodos.
  apply TodoTrace_stops in Htodos.
  rewrite raised_result_map. apply stops_cons; [done|]. by apply stops_app.
Qed.

(** With identifiers 7, 8 and 9 available, the scenario preset gets its
    group, its tag and its root todo; the creation of the child is
    refused and its exception is what the call raises. *)
Lemma initialize_from_preset_stops_at_first_failure_witness :
  let r := @initialize_from_preset (Demo.table true Demo.catalog) (Outage.quota 10)
             "study" 7%N in
  returned r = Raise (ServiceError "quota")
  ∧ length (issued r) = 4
  ∧ stops_at_first_failure (issued r) (Some (ServiceError "quota")).
Proof.
  cbv zeta. split; [reflexivity|]. split; [reflexivity|].
  apply (@initialize_from_preset_stops_at_first_failure
           (Demo.table true Demo.catalog) (Outage.quota 10) "study" Demo.study 7%N).
  reflexivity.
Defined.

(** ** Order and scope of the calls *)

Lemma TagTrace_scoped group_id start preset_tags calls out :
  TagTrace group_id start preset_tags calls out →
  Forall (fun c => is_tag_call c = true ∧ scoped_to group_id c) calls.
Proof.
  induction 1 as [m0|m0 t rest e|m0 t rest tid after out Ha IHa];
    repeat constructor; done.
Qed.

Lemma TodoTrace_scoped tag_group_id tag_name_to_id parent_id preset_todos calls out :
  TodoTrace tag_group_id tag_name_to_id parent_id preset_todos calls out →
  Forall (fun c => is_todo_call c = true ∧ scoped_to tag_group_id c) calls.
Proof.
  induction 1 as [p|p todo rest e|p todo rest id below e Hb IHb
                 |p todo rest id below n after out Hb IHb Ha IHa].
  - constructor.
  - by repeat constructor.
  - by repeat constructor.
  - constructor; [done|]. by apply Forall_app.
Qed.

(** X5: for a preset that loads, [initialize_from_preset] calls the
    collaborators in three phases: the creation of the tag group, then
    creations of tags only, then creations of todos only.  Every tag and
    every todo is requested for the group just created, nothing is
    requested when the group is refused, and no todo is requested before
    every tag of the preset has been created. *)
Theorem initialize_from_preset_call_phases `{Runtime} `{Services}
    (preset_name : string) (preset : Preset) (s : Store) :
  get_preset preset_name = Ok preset →
  ∃ out tag_calls todo_calls,
    issued (initialize_from_preset preset_name s)
    = CreateTagGroup (tag_group_request preset) out :: tag_calls ++ todo_calls
    ∧ Forall (fun c => is_tag_call c = true) tag_calls
    ∧ Forall (fun c => is_todo_call c = true) todo_calls
    ∧ (∀ group_id, out = Ok group_id →
         Forall (scoped_to group_id) (tag_calls ++ todo_calls))
    ∧ (∀ e, out = Raise e → tag_calls = [] ∧ todo_calls = [])
    ∧ (todo_calls ≠ [] →
         length tag_calls = length (tags preset)
         ∧ Forall (fun c => succeeded c = true) tag_calls).
Proof.
  intros Hget. rewrite (initialize_from_preset_loaded _ _ _ Hget). cbv zeta.
  exists (create_tag_group (tag_group_request preset) s).1.
  destruct (create_tag_group _ s).1 as [group_id|e].
  2: { exists [], []. by repeat split. }
  pose proof (create_tags_trace group_id (tags preset)
                (create_tag_group (tag_group_request preset) s).2) as Htags.
  pose proof (TagTrace_scoped _ _ _ _ _ Htags) as Hscoped.
  pose proof (TagTrace_stops _ _ _ _ _ Htags) as Hstops.
  destruct (create_tags _ _ _) as [[tag_name_to_id|e] s2 calls2];
    cbn [returned store_after issued raised] in *.
  - pose proof (_create_todos_recursive_trace group_id tag_name_to_id (todos preset)
                  None s2) as Htodos. cbv zeta in Htodos.
    pose proof (TodoTrace_scoped _ _ _ _ _ _ Htodos) as Hscoped'.
    pose proof (Forall2_length _ _ _ (TagTrace_returned _ _ _ _ _ Htags _ eq_refl))
      as Hlen.
    exists calls2.
    exists (issued (_create_todos_recursive (todos preset) group_id tag_name_to_id
                      None s2)).
    split; [by destruct (_create_todos_recursive _ _ _ _ _) as [[n|e] s3 calls3]|].
    split; [by eapply Forall_impl; [exact Hscoped|intros c [? ?]]|].
    split; [by eapply Forall_impl; [exact Hscoped'|intros c [? ?]]|].
    split; [|split; [done|done]].
    intros gid [= <-]. apply Forall_app. split.
    + by eapply Forall_impl; [exact Hscoped|intros c [? ?]].
    + by eapply Forall_impl; [exact Hscoped'|intros c [? ?]].
  - exists calls2, []. rewrite app_nil_r.
    split; [done|]. split; [by eapply Forall_impl; [exact Hscoped|intros c [? ?]]|].
    split; [constructor|]. split; [|split; [done|done]].
    intros gid [= <-]. by eapply Forall_impl; [exact Hscoped|intros c [? ?]].
Qed.

Lemma initialize_from_preset_call_phases_witness :
  ∃ out tag_calls todo_calls,
    issued (@initialize_from_preset (Demo.table true Demo.catalog) Demo.counter
              "study" 7%N)
    = CreateTagGroup (tag_group_request Demo.study) out :: tag_calls ++ todo_calls
    ∧ Forall (scoped_to 7%N) (tag_calls ++ todo_calls).
Proof.
  destruct (@initialize_from_preset_call_phases (Demo.table true Demo.catalog)
              Demo.counter "study" Demo.study 7%N eq_refl)
    as (out & tag_calls & todo_calls & Hcalls & _ & _ & Hscoped & _).
  exists out, tag_calls, todo_calls. split; [exact Hcalls|].
  apply Hscoped. vm_compute in Hcalls. by injection Hcalls as <- _.
Defined.

(** ** Tag identifiers attached to todos *)

Lemma tag_ids_of_known tag_name_to_id names ids id :
  tag_ids_of tag_name_to_id names = Some ids → id ∈ ids →
  ∃ name, tag_name_to_id !! name = Some id.
Proof.
  unfold tag_ids_of. destruct (truthy names); [|done]. intros [= <-] Hid.
  apply list_elem_of_omap in Hid as (name & _ & Hname). by exists name.
Qed.

Lemma TodoTrace_tag_ids tag_group_id tag_name_to_id parent_id preset_todos calls out :
  TodoTrace tag_group_id tag_name_to_id parent_id preset_todos calls out →
  Forall (fun c => ∀ req o ids id,
            c = CreateTodo req o → TodoCreate.tag_ids req = Some ids → id ∈ ids →
            ∃ name, tag_name_to_id !! name = Some id) calls.
Proof.
  assert (Hhead : ∀ p todo o (req : TodoCreate.t) o' ids id,
    CreateTodo (todo_request tag_group_id
                  (tag_ids_of tag_name_to_id (tag_names todo)) p todo) o
    = CreateTodo req o' →
    TodoCreate.tag_ids req = Some ids → id ∈ ids →
    ∃ name, tag_name_to_id !! name = Some id).
  { intros p todo o req o' ids id [= <- _] Hids Hid.
    by apply (tag_ids_of_known _ _ _ _ Hids). }
  induction 1 as [p|p todo rest e|p todo rest id below e Hb IHb
                 |p todo rest id below n after out Hb IHb Ha IHa].
  - constructor.
  - constructor; [apply Hhead|constructor].
  - constructor; [apply Hhead|done].
  - constructor; [apply Hhead|by apply Forall_app].
Qed.

Lemma most_recent_tag_created calls name id :
  most_recent_tag calls name id → ∃ j req, calls !! j = Some (CreateTag req (Ok id)).
Proof. intros (j & req & Hj & _). by exists j, req. Qed.

(** X6: for a preset that loads, every identifier that
    [initialize_from_preset] attaches to a todo was answered by a tag
    creation issued earlier in the same call: a todo never carries a tag
    identifier from elsewhere. *)
Theorem initialize_from_preset_attaches_created_tags `{Runtime} `{Services}
    (preset_name : string) (preset : Preset) (s : Store) :
  get_preset preset_name = Ok preset →
  tags_precede (issued (initialize_from_preset preset_name s)).
Proof.
  intros Hget. rewrite (initialize_from_preset_loaded _ _ _ Hget). cbv zeta.
  destruct (create_tag_group _ s).1 as [group_id|e].
  2: { intros [|i] req out ids id Hi; [done|]. simpl in Hi. by rewrite lookup_nil in Hi. }
  pose proof (create_tags_trace group_id (tags preset)
                (create_tag_group (tag_group_request preset) s).2) as Htags.
  pose proof (TagTrace_tag_calls _ _ _ _ _ Htags) as (Hkind & _).
  assert (Hnotodo : ∀ calls i req out,
            List.filter is_tag_call calls = calls →
            calls !! i = Some (CreateTodo req out) → False).
  { intros calls i req out Hk Hi. apply list_elem_of_lookup_2 in Hi.
    rewrite <- Hk in Hi. apply list_elem_of_In, List.filter_In in Hi as [_ Hc].
    discriminate Hc. }
  destruct (create_tags _ _ _) as [[tag_name_to_id|e] s2 calls2] eqn:Erun;
    cbn [returned store_after issued] in *.
  2: { intros [|i] req out ids id Hi; [done|]. simpl in Hi.
       by destruct (Hnotodo _ _ _ _ Hkind Hi). }
  pose proof (_create_todos_recursive_trace group_id tag_name_to_id (todos preset)
                None s2) as Htodos. cbv zeta in Htodos.
  apply TodoTrace_tag_ids in Htodos.
  destruct (_create_todos_recursive _ _ _ _ _) as [out3 s3 calls3];
    cbn [returned store_after issued] in *.
  assert (Hgoal : tags_precede (CreateTagGroup (tag_group_request preset) (Ok group_id)
                                  :: calls2 ++ calls3)).
  { intros [|i] req out ids id Hi Hids Hid; [done|]. simpl in Hi.
    apply lookup_app_Some in Hi as [Hi|[Hge Hi]];
      [by destruct (Hnotodo _ _ _ _ Hkind Hi)|].
    apply list_elem_of_lookup_2 in Hi.
    rewrite Forall_forall in Htodos.
    destruct (Htodos _ Hi req out ids id eq_refl Hids Hid) as [name Hname].
    apply (TagTrace_lookup _ _ _ _ _ Htags tag_name_to_id eq_refl) in Hname
      as [Hrecent|[Hempty _]]; [|by rewrite lookup_empty in Hempty].
    apply most_recent_tag_created in Hrecent as (j & req' & Hj).
    exists (S j), req'. split.
    - apply lookup_lt_Some in Hj. lia.
    - simpl. by apply lookup_app_l_Some. }
  by destruct out3.
Qed.

Lemma initialize_from_preset_attaches_created_tags_witness :
  tags_precede (issued (@initialize_from_preset (Demo.table true Demo.catalog)
                          Demo.counter "study" 7%N)).
Proof.
  apply (@initialize_from_preset_attaches_created_tags (Demo.table true Demo.catalog)
           Demo.counter "study" Demo.study 7%N).
  reflexivity.
Defined.

(** ** The names the mapping knows *)

Lemma TagTrace_dom group_id start preset_tags calls out :
  TagTrace group_id start preset_tags calls out →
  ∀ tag_name_to_id, out = Ok tag_name_to_id →
    dom tag_name_to_id = list_to_set (map tag_name preset_tags) ∪ dom start
    ∧ (size tag_name_to_id ≤ length preset_tags + size start)%nat.
Proof.
  induction 1 as [m0|m0 t rest e|m0 t rest tid after out Ha IHa];
    intros m Hm; try discriminate Hm.
  - injection Hm as <-. simpl. split; [set_solver|lia].
  - destruct (IHa m Hm) as [Hdom Hsize]. split.
    + rewrite Hdom, dom_insert_L. simpl. set_solver.
    + pose proof (map_size_insert (tag_name t) tid m0) as Hins.
      destruct (m0 !! tag_name t); simpl in *; lia.
Qed.

(** X7: after the tag loop returns, [tag_name_to_id] knows a name exactly
    when some preset tag has that name; it holds at most [len(tags)]
    entries, and exactly that many when the names of the preset tags are
    distinct. *)
Theorem tag_name_to_id_knows_the_preset_tags `{Services}
    (preset_tags : list PresetTag) (group_id : UUID) (s : Store)
    (tag_name_to_id : gmap string UUID) :
  returned (create_tags preset_tags group_id s) = Ok tag_name_to_id →
  (∀ name, is_Some (tag_name_to_id !! name) ↔ name ∈ map tag_name preset_tags)
  ∧ (size tag_name_to_id ≤ length preset_tags)%nat
  ∧ (NoDup (map tag_name preset_tags) → size tag_name_to_id = length preset_tags).
Proof.
  intros Hm. pose proof (create_tags_trace group_id preset_tags s) as Htrace.
  destruct (TagTrace_dom _ _ _ _ _ Htrace _ Hm) as [Hdom Hsize].
  rewrite dom_empty_L, union_empty_r_L in Hdom. rewrite map_size_empty in Hsize.
  split; [|split].
  - intros name. by rewrite <- elem_of_dom, Hdom, elem_of_list_to_set.
  - lia.
  - intros Hnodup. by rewrite <- size_dom, Hdom, size_list_to_set, length_map.
Qed.

Lemma tag_name_to_id_knows_the_preset_tags_witness :
  ∃ tag_name_to_id : gmap string UUID,
    returned (@create_tags Demo.counter
                [mkPresetTag "Math" "#00FF00" None; mkPresetTag "Art" "#0000FF" None;
                 mkPresetTag "Math" "#FF00FF" None] 7%N 8%N) = Ok tag_name_to_id
    ∧ (size tag_name_to_id ≤ 3)%nat
    ∧ ¬ is_Some (tag_name_to_id !! "Physics").
Proof.
  eexists. split; [reflexivity|].
  destruct (@tag_name_to_id_knows_the_preset_tags Demo.counter
              [mkPresetTag "Math" "#00FF00" None; mkPresetTag "Art" "#0000FF" None;
               mkPresetTag "Math" "#FF00FF" None] 7%N 8%N _ eq_refl)
    as (Hknown & Hsize & _).
  split; [exact Hsize|]. intros Hsome. apply Hknown in Hsome.
  simpl in Hsome. set_solver.
Defined.

(** ** Roots and batches of the traversal *)

Lemma TodoTrace_roots tag_group_id tag_name_to_id parent_id preset_todos calls out :
  TodoTrace tag_group_id tag_name_to_id parent_id preset_todos calls out →
  ∀ n, out = Ok n →
    length (List.filter is_root_request calls)
    = match parent_id with None => length preset_todos | Some _ => 0 end.
Proof.
  induction 1 as [p|p todo rest e|p todo rest id below e Hb IHb
                 |p todo rest id below n after out Hb IHb Ha IHa];
    intros n' Hn'; try discriminate Hn'.
  - by destruct p.
  - destruct out as [k|e]; [|discriminate Hn'].
    specialize (IHb n eq_refl). specialize (IHa k eq_refl). simpl in IHb.
    cbn [List.filter is_root_request todo_request TodoCreate.parent_id].
    destruct p; cbn [length]; rewrite List.filter_app, length_app, IHb, IHa; done.
Qed.

(** X8: in a traversal from the root level that returns, the todos
    requested without parent are exactly as many as the top-level nodes
    of the forest: every other todo is requested under a parent. *)
Theorem root_level_todos_have_no_parent `{Services}
    (preset_todos : list PresetTodo) (tag_group_id : UUID)
    (tag_name_to_id : gmap string UUID) (s : Store) (n : nat) :
  let r := _create_todos_recursive preset_todos tag_group_id tag_name_to_id None s in
  returned r = Ok n →
  length (List.filter is_root_request (issued r)) = length preset_todos
  ∧ length (List.filter (fun c => negb (is_root_request c)) (issued r))
    = _count_todos_recursive preset_todos - length preset_todos.
Proof.
  cbv zeta. intros Hn.
  pose proof (_create_todos_recursive_trace tag_group_id tag_name_to_id preset_todos
                None s) as Htrace. cbv zeta in Htrace.
  pose proof (TodoTrace_roots _ _ _ _ _ _ Htrace n Hn) as Hroots.
  destruct (TodoTrace_returned _ _ _ _ _ _ Htrace n Hn) as (_ & Hlen & _).
  split; [done|].
  pose proof (List.filter_length is_root_request
                (issued (_create_todos_recursive preset_todos tag_group_id
                           tag_name_to_id None s))) as Hsplit.
  lia.
Qed.

Lemma root_level_todos_have_no_parent_witness :
  let r := @_create_todos_recursive Demo.counter Demo.forest 1%N ∅ None 100%N in
  returned r = Ok 5
  ∧ length (List.filter is_root_request (issued r)) = length Demo.forest.
Proof.
  cbv zeta.
  assert (Hreturned :
    returned (@_create_todos_recursive Demo.counter Demo.forest 1%N ∅ None 100%N) = Ok 5)
    by reflexivity.
  split; [exact Hreturned|].
  exact (proj1 (@root_level_todos_have_no_parent Demo.counter Demo.forest 1%N ∅ 100%N 5
                  Hreturned)).
Defined.

(** X9: creating two lists of siblings under the same parent in one
    traversal is creating the first list, then the second from the store
    the first left: the counts add up and the calls follow one another;
    when the first list fails the second is not started. *)
Theorem _create_todos_recursive_app `{Services}
    (before after : list PresetTodo) (tag_group_id : UUID)
    (tag_name_to_id : gmap string UUID) (parent_id : option UUID) (s : Store) :
  _create_todos_recursive (before ++ after) tag_group_id tag_name_to_id parent_id s =
  let r1 := _create_todos_recursive before tag_group_id tag_name_to_id parent_id s in
  match returned r1 with
  | Raise e => mkRun (Raise e) (store_after r1) (issued r1)
  | Ok n1 =>
      let r2 := _create_todos_recursive after tag_group_id tag_name_to_id parent_id
                  (store_after r1) in
      mkRun (result_map (fun n2 => n1 + n2) (returned r2)) (store_after r2)
            (issued r1 ++ issued r2)
  end.
Proof.
  revert s. induction before as [|todo rest IH]; intros s; cbv zeta.
  - rewrite _create_todos_recursive_nil. cbn [returned store_after issued app].
    by destruct (_create_todos_recursive after _ _ _ s) as [[n|e] s' calls].
  - rewrite <- app_comm_cons, !_create_todos_recursive_cons. cbv zeta.
    destruct (create_todo_step _ _ _ _ _ _) as [[n1|e] s1 calls1];
      cbn [returned store_after issued]; [|done].
    rewrite IH. cbv zeta.
    destruct (_create_todos_recursive rest _ _ _ s1) as [[n2|e] s2 calls2];
      cbn [returned store_after issued result_map]; [|done].
    destruct (_create_todos_recursive after _ _ _ s2) as [[n3|e] s3 calls3];
      cbn [returned store_after issued result_map]; rewrite app_assoc; [|done].
    by rewrite Nat.add_assoc.
Qed.

(** ** Names that all resolve *)

(** X10: the comprehension yields at most one identifier per tag name,
    and when the mapping knows every name of the list it yields exactly
    one per name, each the identifier of the name at the same position. *)
Theorem lookup_known_one_per_name
    (tag_name_to_id : gmap string UUID) (names : list string) :
  (∀ ids, lookup_known tag_name_to_id names = Ok ids →
     (length ids ≤ length names)%nat)
  ∧ ((∀ name, name ∈ names → is_Some (tag_name_to_id !! name)) →
     ∃ ids, lookup_known tag_name_to_id names = Ok ids
       ∧ Forall2 (fun name id => tag_name_to_id !! name = Some id) names ids).
Proof.
  rewrite lookup_known_ok. split.
  - intros ids [= <-]. induction names as [|name rest IH]; [done|].
    simpl. unfold omap in IH. destruct (tag_name_to_id !! name); simpl; lia.
  - intros Hknown. eexists. split; [done|].
    induction names as [|name rest IH]; [constructor|].
    destruct (Hknown name) as [id Hid]; [by left|].
    simpl. rewrite Hid. constructor; [done|].
    apply IH. intros name' Hin. apply Hknown. by right.
Qed.

Lemma lookup_known_one_per_name_witness :
  ∃ ids, lookup_known {["Math" := 8%N; "Art" := 9%N]} ["Art"; "Math"; "Art"] = Ok ids
    ∧ Forall2 (fun name id => ({["Math" := 8%N; "Art" := 9%N]} : gmap string UUID) !! name
                              = Some id)
              ["Art"; "Math"; "Art"] ids.
Proof.
  apply (proj2 (lookup_known_one_per_name {["Math" := 8%N; "Art" := 9%N]}
                  ["Art"; "Math"; "Art"])).
  intros name Hname.
  repeat (apply elem_of_cons in Hname as [->|Hname]; [by eexists|]).
  by apply elem_of_nil in Hname.
Defined.

(** ** A file the listing cannot get past *)

(** X12: the listing raises the exception of the first matched file, in
    scan order, whose failure the [except] clause does not catch; what
    the files before it contributed is not returned. *)
Theorem list_presets_raises_first_uncaught `{Runtime}
    (before after : list Path) (preset_file : Path) (e : exn) :
  path_exists PRESETS_DIR = Ok true →
  glob PRESETS_DIR "*.json" = before ++ preset_file :: after →
  (∀ f, f ∈ before → settles f) →
  _load_preset_file preset_file = Raise e → caught e = false →
  list_presets = Raise e.
Proof.
  intros Hdir Hglob Hbefore Hload Huncaught.
  unfold list_presets. rewrite Hdir, Hglob. simpl.
  by apply list_presets_loop_first_uncaught.
Qed.

Lemma list_presets_raises_first_uncaught_witness :
  @list_presets (Demo.table true
                   [("study", Demo.Valid Demo.study); ("broken", Demo.Malformed);
                    ("locked", Demo.Unreadable); ("late", Demo.Valid Demo.study)])
  = Raise (OSError "presets/locked.json").
Proof.
  apply (@list_presets_raises_first_uncaught
           (Demo.table true
              [("study", Demo.Valid Demo.study); ("broken", Demo.Malformed);
               ("locked", Demo.Unreadable); ("late", Demo.Valid Demo.study)])
           ["presets/study.json"; "presets/broken.json"] ["presets/late.json"]
           "presets/locked.json" (OSError "presets/locked.json"));
    [reflexivity|reflexivity| |reflexivity|reflexivity].
  intros f Hf. unfold settles. intros e.
  repeat (apply elem_of_cons in Hf as [->|Hf]; [vm_compute; by intros [= <-]|]).
  by apply elem_of_nil in Hf.
Defined.

(** ** The identifier string of the result *)

Lemma hex_value_digit (d : N) : (d < 16)%N → hex_value (hex_digit d) = d.
Proof.
  intros Hd. rewrite <- (N2Nat.id d).
  assert (Hk : (N.to_nat d < 16)%nat) by lia.
  revert Hk. generalize (N.to_nat d). intros k Hk.
  do 16 (destruct k as [|k]; [reflexivity|]). lia.
Qed.

Lemma length_hex_padded (width : nat) (n : N) (acc : string) :
  String.length (hex_padded width n acc) = (width + String.length acc)%nat.
Proof.
  revert n acc. induction width as [|width IH]; intros n acc; [done|].
  cbn [hex_padded]. rewrite IH. simpl. lia.
Qed.

(** Reading back the digits that [hex_padded] writes. *)
Lemma hex_read_hex_padded (width : nat) (n acc_value : N) (acc : string) :
  hex_read acc_value (hex_padded width n acc)
  = hex_read (acc_value * 16 ^ N.of_nat width + n mod 16 ^ N.of_nat width)%N acc.
Proof.
  revert n acc. induction width as [|width IH]; intros n acc.
  - cbn [hex_padded]. f_equal. change (16 ^ N.of_nat 0)%N with 1%N.
    rewrite N.mod_1_r. lia.
  - cbn [hex_padded]. rewrite IH. cbn [hex_read].
    rewrite hex_value_digit by (apply N.mod_lt; lia). f_equal.
    rewrite Nat2N.inj_succ, N.pow_succ_r'.
    rewrite (N.Div0.mod_mul_r n 16 (16 ^ N.of_nat width)). lia.
Qed.

(** Taking the hyphens out of the format gives the 32 digits back. *)
Lemma uuid_digits_format (hex : string) :
  String.length hex = 32 →
  uuid_digits (String.substring 0 8 hex +:+ "-" +:+ String.substring 8 4 hex +:+ "-"
                 +:+ String.substring 12 4 hex +:+ "-" +:+ String.substring 16 4 hex
                 +:+ "-" +:+ String.substring 20 12 hex) = hex
  ∧ String.length (String.substring 0 8 hex +:+ "-" +:+ String.substring 8 4 hex +:+ "-"
                     +:+ String.substring 12 4 hex +:+ "-" +:+ String.substring 16 4 hex
                     +:+ "-" +:+ String.substring 20 12 hex) = 36.
Proof.
  intros Hlen.
  do 32 (destruct hex as [|? hex]; [discriminate Hlen|]).
  destruct hex; [|discriminate Hlen]. by split.
Qed.

(** X13: the [tag_group_id] string of a result has 36 characters and
    determines the identifier of the group: the strings of two different
    128-bit identifiers differ. *)
Theorem uuid_str_identifies (u v : UUID) :
  String.length (uuid_str u) = 36
  ∧ ((u < 2 ^ 128)%N → (v < 2 ^ 128)%N → uuid_str u = uuid_str v → u = v).
Proof.
  assert (Hdigits : ∀ w : UUID, uuid_digits (uuid_str w) = hex_padded 32 w ""
                                ∧ String.length (uuid_str w) = 36).
  { intros w. unfold uuid_str. cbv zeta. apply uuid_digits_format.
    by rewrite length_hex_padded. }
  split; [apply Hdigits|]. intros Hu Hv Heq.
  assert (Hhex : hex_padded 32 u "" = hex_padded 32 v "").
  { by rewrite <- (proj1 (Hdigits u)), <- (proj1 (Hdigits v)), Heq. }
  apply (f_equal (hex_read 0)) in Hhex.
  rewrite !hex_read_hex_padded in Hhex. cbn [hex_read] in Hhex.
  change (16 ^ N.of_nat 32)%N with (2 ^ 128)%N in Hhex.
  rewrite !N.mod_small in Hhex by done. lia.
Qed.

Lemma uuid_str_identifies_witness : uuid_str 7%N ≠ uuid_str 8%N.
Proof.
  intros Heq.
  apply (proj2 (uuid_str_identifies 7%N 8%N)) in Heq; [discriminate Heq|reflexivity..].
Defined.
